(** * Workflow replay and comparison engine

    A shallow embedding of [frontend/src/utils/replayUtils.ts] and of the
    data model of [frontend/src/types/index.ts], together with the
    properties of branch construction ([createReplaySession]) and of
    session comparison ([compareSessions], [compareSteps]).

    JavaScript numbers that hold step indices, groups and exit codes are
    integers ([Z]); strings are [string]; an optional property is an
    [option]; arrays are lists.  Console output is not part of the model. *)

From Stdlib Require Import ZArith Ascii.
From stdpp Require Import base decidable option list strings gmap pretty sorting.

(** ** Data model ([types/index.ts]) *)

(** The discriminant [type] of a step. *)
Inductive StepType := TPrompt | TFileEdit | TCommand | TAssistantResponse.

(** [FileEditStep.data.action]. *)
Inductive FileAction := ActCreate | ActUpdate | ActDelete.

(** How the two enumerations print inside a template literal. *)
Definition type_name (t : StepType) : string :=
  match t with
  | TPrompt => "prompt"
  | TFileEdit => "file_edit"
  | TCommand => "command"
  | TAssistantResponse => "assistant_response"
  end.

Definition action_name (a : FileAction) : string :=
  match a with
  | ActCreate => "create"
  | ActUpdate => "update"
  | ActDelete => "delete"
  end.

(** The [data] object of a step, one constructor per variant.  The
    constructor plays the role of the step's [type] field.  A prompt's
    [data] is declared with the single field [prompt], yet
    [compareSteps] and the mock executor also read [data.response] on
    prompts: it is [None] when the object has no such property. *)
Inductive StepData :=
  | PromptData (prompt : string) (response : option string)
  | FileEditData (path : string) (action : FileAction) (content : string)
  | CommandData (command stdout stderr : string) (exitCode : Z)
  | AssistantResponseData (response : string).

Definition data_type (d : StepData) : StepType :=
  match d with
  | PromptData _ _ => TPrompt
  | FileEditData _ _ _ => TFileEdit
  | CommandData _ _ _ _ => TCommand
  | AssistantResponseData _ => TAssistantResponse
  end.

(** [BaseStep] and its extensions.  The record is parametric in what the
    [data] property holds: the payload itself ([Step]) or a reference to
    a payload object in a store (section on aliasing below). *)
Record StepOf (D : Type) := mkStep {
  stepIndex : Z;
  timestamp : string;
  group : Z;
  title : option string;
  tags : option (list string);
  replayOf : option Z;
  data : D
}.
Arguments mkStep {D} _ _ _ _ _ _ _.
Arguments stepIndex {D} _.
Arguments timestamp {D} _.
Arguments group {D} _.
Arguments title {D} _.
Arguments tags {D} _.
Arguments replayOf {D} _.
Arguments data {D} _.

Definition Step : Type := StepOf StepData.

Definition type (s : Step) : StepType := data_type (data s).

Record Session := mkSession {
  sessionId : string;
  sessionTitle : string;
  createdAt : string;
  steps : list Step;
  sessionReplayOf : option string;
  replayFromStepIndex : option Z;
  isReplaySession : option bool
}.

Inductive Status := identical | modified | added | removed.

Record StepComparison := mkStepComparison {
  cmpStepIndex : Z;
  originalStep : option Step;
  replayStep : option Step;
  status : Status;
  differences : list string
}.

Record ComparisonSummary := mkSummary {
  totalStepsOriginal : nat;
  totalStepsReplay : nat;
  identicalSteps : nat;
  modifiedSteps : nat;
  addedSteps : nat;
  removedSteps : nat
}.

Record SessionComparison := mkSessionComparison {
  originalSession : Session;
  replaySession : Session;
  stepComparisons : list StepComparison;
  summary : ComparisonSummary
}.

#[global] Instance StepType_eq_dec : EqDecision StepType.
Proof. solve_decision. Defined.
#[global] Instance FileAction_eq_dec : EqDecision FileAction.
Proof. solve_decision. Defined.
#[global] Instance StepData_eq_dec : EqDecision StepData.
Proof. solve_decision. Defined.
#[global] Instance StepOf_eq_dec `{EqDecision D} : EqDecision (StepOf D).
Proof. solve_decision. Defined.
#[global] Instance Status_eq_dec : EqDecision Status.
Proof. solve_decision. Defined.

(** ** Array helpers *)

(** [arr.find(s => s.stepIndex === i)]: the first step with that index. *)
Definition findStep (i : Z) (l : list Step) : option Step :=
  List.find (fun s => bool_decide (stepIndex s = i)) l.

(** [new Set(iterable)]: insertion order, later duplicates dropped. *)
Definition Set_add (s : list Z) (x : Z) : list Z :=
  if bool_decide (x ∈ s) then s else s ++ [x].

Definition new_Set (l : list Z) : list Z := foldl Set_add [] l.

(** [arr.sort((a, b) => key(a) - key(b))].  The sort of the language is
    stable, so its result is the stable insertion sort by [key]. *)
Fixpoint insert_by {A} (key : A → Z) (x : A) (l : list A) : list A :=
  match l with
  | [] => [x]
  | y :: l' =>
      if bool_decide (key y < key x)%Z then y :: insert_by key x l'
      else x :: y :: l'
  end.

Definition sort_by {A} (key : A → Z) (l : list A) : list A :=
  foldr (insert_by key) [] l.

(** Ascending order of the keys. *)
Definition key_le {A} (key : A → Z) (a b : A) : Prop := (key a ≤ key b)%Z.

(** ** Comparison engine *)

(** One string if the two values differ ([a !== b]), none otherwise. *)
Definition changed `{EqDecision A} (a b : A) (description : string)
  : list string :=
  if bool_decide (a ≠ b) then [description] else [].

Definition compareSteps (originalStep replayStep : Step) : list string :=
  if bool_decide (type originalStep ≠ type replayStep) then
    ["Type changed from " +:+ type_name (type originalStep) +:+ " to "
       +:+ type_name (type replayStep)]
  else
    match data originalStep, data replayStep with
    | PromptData p1 r1, PromptData p2 r2 =>
        changed p1 p2 "Prompt input changed"
        ++ changed r1 r2 "Response output changed"
    | CommandData c1 o1 e1 x1, CommandData c2 o2 e2 x2 =>
        changed c1 c2 "Command changed"
        ++ changed o1 o2 "Standard output changed"
        ++ changed e1 e2 "Standard error changed"
        ++ changed x1 x2
             ("Exit code changed from " +:+ pretty x1 +:+ " to " +:+ pretty x2)
    | FileEditData p1 a1 c1, FileEditData p2 a2 c2 =>
        changed p1 p2 "File path changed"
        ++ changed a1 a2
             ("Action changed from " +:+ action_name a1 +:+ " to "
                +:+ action_name a2)
        ++ changed c1 c2 "File content changed"
    | _, _ => []
    end.

(** The body of the loop of [compareSessions] for one index. *)
Definition compareAt (originalSession replaySession : Session) (i : Z)
  : StepComparison :=
  let originalStep := findStep i (steps originalSession) in
  let replayStep := findStep i (steps replaySession) in
  match originalStep, replayStep with
  | Some o, Some r =>
      let stepDifferences := compareSteps o r in
      mkStepComparison i originalStep replayStep
        (if bool_decide (0 < length stepDifferences)%nat then modified
         else identical)
        stepDifferences
  | Some _, None =>
      mkStepComparison i originalStep replayStep removed
        ["Step was removed in replay"]
  | None, Some _ =>
      mkStepComparison i originalStep replayStep added
        ["Step was added in replay"]
  | None, None =>
      mkStepComparison i originalStep replayStep identical []
  end.

Definition allStepIndices (originalSession replaySession : Session) : list Z :=
  new_Set (map stepIndex (steps originalSession)
             ++ map stepIndex (steps replaySession)).

Definition countStatus (st : Status) (l : list StepComparison) : nat :=
  length (filter (fun sc => status sc = st) l).

Definition compareSessions (originalSession replaySession : Session)
  : SessionComparison :=
  let stepComparisons :=
    map (compareAt originalSession replaySession)
      (sort_by id (allStepIndices originalSession replaySession)) in
  mkSessionComparison originalSession replaySession stepComparisons
    (mkSummary
       (length (steps originalSession))
       (length (steps replaySession))
       (countStatus identical stepComparisons)
       (countStatus modified stepComparisons)
       (countStatus added stepComparisons)
       (countStatus removed stepComparisons)).

(** ** Branch constructor *)

(** What awaiting the executor's promise gives: the promise resolves
    with a step or rejects with a reason. *)
Inductive Settled :=
  | Resolved (replayedStep : Step)
  | Rejected (reason : string).

(** What a call of [createReplaySession] gives its caller: the promise
    resolves with a session, or rejects with the [Error] thrown. *)
Inductive Outcome :=
  | Returned (s : Session)
  | Thrown (message : string).

(** [{ ...step }]: a new object with the same own properties. *)
Definition spread {D} (step : StepOf D) : StepOf D :=
  mkStep (stepIndex step) (timestamp step) (group step) (title step)
    (tags step) (replayOf step) (data step).

(** [{ ...replayedStep, replayOf: i, timestamp: t }]. *)
Definition tagReplay (replayedStep : Step) (i : Z) (t : string) : Step :=
  mkStep (stepIndex replayedStep) t (group replayedStep) (title replayedStep)
    (tags replayedStep) (Some i) (data replayedStep).

(** [s.replace(/[:.]/g, '')]. *)
Fixpoint strip_colon_dot (s : string) : string :=
  match s with
  | EmptyString => EmptyString
  | String c s' =>
      if bool_decide (c = ":"%char ∨ c = "."%char) then strip_colon_dot s'
      else String c (strip_colon_dot s')
  end.

Section Effects.
(** The part of the world the code acts on: whatever the executor
    touches, and the clock. *)
Context {World : Type}.

(** [new Date().toISOString()]. *)
Variable now : World → string * World.

(** [(step: Step) => Promise<Step>], awaited: from the step and the
    world it gives how the promise settles and the world it leaves.  The
    executor is taken not to write to the step object it is given. *)
Definition Executor : Type := Step → World → Settled * World.

(** The state threaded through the code: the world, and the steps the
    executor has been called on so far, oldest first. *)
Record Env := mkEnv { world : World; calls : list Step }.

Definition M (A : Type) : Type := Env → A * Env.

Definition ret {A} (a : A) : M A := fun e => (a, e).

Definition bind {A B} (m : M A) (k : A → M B) : M B :=
  fun e => let (a, e') := m e in k a e'.

Notation "'let!' x := m 'in' k" := (bind m (fun x => k))
  (at level 10, x name, m at level 100, k at level 200, only parsing).

Definition date_now : M string :=
  fun e => let (t, w) := now (world e) in (t, mkEnv w (calls e)).

Definition await_execute (execute : Executor) (step : Step) : M Settled :=
  fun e =>
    let (r, w) := execute step (world e) in (r, mkEnv w (calls e ++ [step])).

Definition generateReplaySessionId (originalSessionId : string) : M string :=
  let! timestamp := date_now in
  ret (originalSessionId +:+ "-replay-" +:+ strip_colon_dot timestamp).

Definition unchangedStepsOf (originalSession : Session) (targetGroup : Z)
  : list Step :=
  map spread
    (filter (fun step => (group step ≤ targetGroup)%Z)
       (steps originalSession)).

Definition stepsToReplayInSameGroup (originalSession : Session)
    (targetGroup fromStepIndex : Z) : list Step :=
  sort_by stepIndex
    (filter (fun step => group step = targetGroup
                         ∧ (fromStepIndex < stepIndex step)%Z)
       (steps originalSession)).

(** The [for ... of] loop with its [try]/[catch]: [break] on the first
    rejection. *)
Fixpoint replayLoop (mockExecuteStep : Executor) (todo : list Step)
    (replayedSteps : list Step) : M (list Step) :=
  match todo with
  | [] => ret replayedSteps
  | originalStep :: rest =>
      let! r := await_execute mockExecuteStep originalStep in
      match r with
      | Resolved replayedStep =>
          let! t := date_now in
          replayLoop mockExecuteStep rest
            (replayedSteps
               ++ [tagReplay replayedStep (stepIndex originalStep) t])
      | Rejected _ => ret replayedSteps
      end
  end.

Definition createReplaySession (originalSession : Session)
    (fromStepIndex : Z) (mockExecuteStep : Executor) : M Outcome :=
  match findStep fromStepIndex (steps originalSession) with
  | None =>
      ret (Thrown ("Step " +:+ pretty fromStepIndex
                     +:+ " not found in original session"))
  | Some fromStep =>
      let targetGroup := group fromStep in
      let unchangedSteps := unchangedStepsOf originalSession targetGroup in
      let todo :=
        stepsToReplayInSameGroup originalSession targetGroup fromStepIndex in
      let! replayedSteps := replayLoop mockExecuteStep todo [] in
      let! replaySessionId := generateReplaySessionId (sessionId originalSession) in
      let! created := date_now in
      ret (Returned
             (mkSession replaySessionId
                ("Replay of " +:+ sessionTitle originalSession)
                created
                (unchangedSteps ++ replayedSteps)
                (Some (sessionId originalSession))
                (Some fromStepIndex)
                (Some true)))
  end.

(** The executor, called on the steps of a list one after the other
    from a given world, resolved each time: the steps it gave, tagged
    as the loop tags them, and the world it left.  Each call starts in
    the world that the call before it and the reading of the clock
    that followed have left. *)
Inductive resolvedRun (execute : Executor)
  : list Step → World → list Step → World → Prop :=
  | run_nil w : resolvedRun execute [] w [] w
  | run_cons originalStep rest w replayedStep w1 t w2 rs w3 :
      execute originalStep w = (Resolved replayedStep, w1) →
      now w1 = (t, w2) →
      resolvedRun execute rest w2 rs w3 →
      resolvedRun execute (originalStep :: rest) w
        (tagReplay replayedStep (stepIndex originalStep) t :: rs) w3.

(** An executor that never rejects. *)
Definition alwaysResolves (execute : Executor) : Prop :=
  ∀ step w, ∃ r w', execute step w = (Resolved r, w').

(** An executor that gives back steps of the group of its input. *)
Definition preservesGroup (execute : Executor) : Prop :=
  ∀ step w r w', execute step w = (Resolved r, w') → group r = group step.
End Effects.

(** ** Object identity: what the spread copy shares

    For the question of aliasing the objects live in a store.  A step
    object holds, in [data], the address of its data object; the [steps]
    array of a session holds the addresses of its step objects.  (The
    [tags] array is shared by a spread in the same way as [data]; it is
    kept by value here.) *)

Abbreviation loc := positive.

Record Store := mkStore {
  stepObjects : gmap positive (StepOf positive);
  dataObjects : gmap positive StepData
}.

(** A new step object at an address not yet in use. *)
Definition allocStep (o : StepOf loc) (σ : Store) : loc * Store :=
  let l := fresh (dom (stepObjects σ)) in
  (l, mkStore (<[l := o]> (stepObjects σ)) (dataObjects σ)).

(** [step.group <= targetGroup], on a reference. *)
Definition groupAtMost (σ : Store) (targetGroup : Z) (l : loc) : bool :=
  match stepObjects σ !! l with
  | Some o => bool_decide (group o ≤ targetGroup)%Z
  | None => false
  end.

(** [.map(step => ({ ...step }))] on an array of references.  An
    address with no object behind it cannot be held by an array; the
    function skips it. *)
Fixpoint mapSpread (σ : Store) (arr : list loc) : list loc * Store :=
  match arr with
  | [] => ([], σ)
  | l :: rest =>
      match stepObjects σ !! l with
      | Some o =>
          let (l', σ1) := allocStep (spread o) σ in
          let (arr', σ2) := mapSpread σ1 rest in
          (l' :: arr', σ2)
      | None => mapSpread σ rest
      end
  end.

(** The [unchangedSteps] of [createReplaySession], on references. *)
Definition copyUnchanged (σ : Store) (stepsArr : list loc) (targetGroup : Z)
  : list loc * Store :=
  mapSpread σ (List.filter (groupAtMost σ targetGroup) stepsArr).

(** [step.data.f = v] for the step object at [l]: the data object that
    [step.data] refers to is changed in place. *)
Definition mutatePayload (σ : Store) (l : loc) (f : StepData → StepData)
  : Store :=
  match stepObjects σ !! l with
  | Some o => mkStore (stepObjects σ) (alter f (data o) (dataObjects σ))
  | None => σ
  end.

(** [step.timestamp = t] for the step object at [l]: a property of the
    step object itself is reassigned. *)
Definition setTimestamp (σ : Store) (l : loc) (t : string) : Store :=
  mkStore
    (alter (fun o => mkStep (stepIndex o) t (group o) (title o) (tags o)
                       (replayOf o) (data o)) l (stepObjects σ))
    (dataObjects σ).

(** What a reader of the step at [l] sees. *)
Definition readStep (σ : Store) (l : loc) : option Step :=
  match stepObjects σ !! l with
  | Some o =>
      match dataObjects σ !! data o with
      | Some d =>
          Some (mkStep (stepIndex o) (timestamp o) (group o) (title o)
                  (tags o) (replayOf o) d)
      | None => None
      end
  | None => None
  end.

Definition readSteps (σ : Store) (arr : list loc) : list (option Step) :=
  map (readStep σ) arr.

(** The step a reader sees once its payload has been changed by [f]. *)
Definition withData (f : StepData → StepData) (step : Step) : Step :=
  mkStep (stepIndex step) (timestamp step) (group step) (title step)
    (tags step) (replayOf step) (f (data step)).

(** ** Line-level diff *)

Inductive Kind := Added | Removed | Unchanged.

Record Segment := mkSegment { kind : Kind; text : string }.

#[global] Instance Kind_eq_dec : EqDecision Kind.
Proof. solve_decision. Defined.
#[global] Instance Segment_eq_dec : EqDecision Segment.
Proof. solve_decision. Defined.

Definition newline : ascii := "010"%char.

(** Modelled from the spec: the line splitting of [diffLines].  The
    repository calls [Diff.diffLines] of the package [diff], whose code
    is not part of it.  A text is cut after each newline; every line
    keeps its newline, so that the lines of a text, put together, are the
    text. *)
Fixpoint splitLines (s : string) : list string :=
  match s with
  | EmptyString => []
  | String c s' =>
      if bool_decide (c = newline) then String c EmptyString :: splitLines s'
      else
        match splitLines s' with
        | [] => [String c EmptyString]
        | line :: lines => String c line :: lines
        end
  end.

(** Number of lines of an edit script that are common to both texts. *)
Definition commonLines (script : list (Kind * string)) : nat :=
  length (filter (fun op => op.1 = Unchanged) script).

(** Modelled from the spec: the alignment of [diffLines] by longest
    common subsequence, missing from the repository like [splitLines].
    Two equal first lines are matched; otherwise the first line of the
    old text is removed or the first line of the new text is added,
    whichever leaves more lines in common. *)
Fixpoint alignLines (old : list string) : list string → list (Kind * string) :=
  match old with
  | [] => fun new => map (pair Added) new
  | x :: old' =>
      fix inner (new : list string) : list (Kind * string) :=
        match new with
        | [] => map (pair Removed) (x :: old')
        | y :: new' =>
            if bool_decide (x = y) then (Unchanged, x) :: alignLines old' new'
            else
              let removal := (Removed, x) :: alignLines old' (y :: new') in
              let addition := (Added, y) :: inner new' in
              if bool_decide (commonLines addition ≤ commonLines removal)%nat
              then removal else addition
        end
  end.

(** Modelled from the spec: maximal runs of lines of the same kind form
    one segment each, whose text is the lines of the run. *)
Fixpoint groupRuns (script : list (Kind * string)) : list Segment :=
  match script with
  | [] => []
  | (k, line) :: rest =>
      match groupRuns rest with
      | seg :: segs =>
          if bool_decide (kind seg = k)
          then mkSegment k (line +:+ text seg) :: segs
          else mkSegment k line :: seg :: segs
      | [] => [mkSegment k line]
      end
  end.

(** Modelled from the spec: the entry point [diffLines(oldText, newText)]
    of section 4.4, standing for [Diff.diffLines], whose code is missing
    from the repository. *)
Definition diffLines (oldText newText : string) : list Segment :=
  groupRuns (alignLines (splitLines oldText) (splitLines newText)).

(** The lines of the given kinds of an edit script, in order. *)
Definition linesOf (kinds : list Kind) (script : list (Kind * string))
  : list string :=
  map snd (filter (fun op => op.1 ∈ kinds) script).

(** Lines put together. *)
Definition joinLines (lines : list string) : string :=
  foldr String.append EmptyString lines.

(** The text that the segments of the given kinds spell, in order. *)
Definition textOf (kinds : list Kind) (script : list Segment) : string :=
  foldr (fun seg acc => if bool_decide (kind seg ∈ kinds)
                        then text seg +:+ acc else acc)
    EmptyString script.

(** ** Fixtures and specification-side notions *)

(** Number of payload fields in which two data objects of the same
    variant differ. *)
Definition differs `{EqDecision A} (a b : A) : nat :=
  if bool_decide (a ≠ b) then 1%nat else 0%nat.

Definition payloadMismatches (d1 d2 : StepData) : nat :=
  match d1, d2 with
  | PromptData p1 r1, PromptData p2 r2 => differs p1 p2 + differs r1 r2
  | CommandData c1 o1 e1 x1, CommandData c2 o2 e2 x2 =>
      differs c1 c2 + differs o1 o2 + differs e1 e2 + differs x1 x2
  | FileEditData p1 a1 c1, FileEditData p2 a2 c2 =>
      differs p1 p2 + differs a1 a2 + differs c1 c2
  | AssistantResponseData r1, AssistantResponseData r2 => differs r1 r2
  | _, _ => 0%nat
  end.

Definition indices (s : Session) : list Z := map stepIndex (steps s).

Definition plainStep (i g : Z) (d : StepData) : Step :=
  mkStep i "2025-01-01T00:00:00.000Z" g None None None d.

Definition plainSession (id : string) (l : list Step) : Session :=
  mkSession id "demo" "2025-01-01T00:00:00.000Z" l None None None.

(** A clock that ticks once per reading, and three executors. *)
Definition demoClock (w : nat) : string * nat :=
  ("2025-06-01T10:00:0" +:+ pretty w +:+ ".000Z", S w).

Definition echoExecutor : @Executor nat := fun step w => (Resolved step, S w).

Definition failAt (i : Z) : @Executor nat :=
  fun step w =>
    if bool_decide (stepIndex step = i) then (Rejected "rejected", S w)
    else (Resolved step, S w).

Definition regroup (g : Z) : @Executor nat :=
  fun step w =>
    (Resolved (mkStep (stepIndex step) (timestamp step) g (title step)
                 (tags step) (replayOf step) (data step)), S w).

(** Indices 1 to 6 in groups 1, 1, 2, 2, 2, 3. *)
Definition demoSession : Session :=
  plainSession "s1"
    [plainStep 1 1 (PromptData "build it" None);
     plainStep 2 1 (AssistantResponseData "done");
     plainStep 3 2 (PromptData "test it" None);
     plainStep 4 2 (CommandData "npm test" "3 passing" "" 0);
     plainStep 5 2 (FileEditData "a.ts" ActUpdate "x");
     plainStep 6 3 (PromptData "ship it" None)].

Definition demoStep3 : Step := plainStep 3 2 (PromptData "test it" None).
Definition demoStep4 : Step :=
  plainStep 4 2 (CommandData "npm test" "3 passing" "" 0).
Definition demoStep5 : Step := plainStep 5 2 (FileEditData "a.ts" ActUpdate "x").

(** Indices 1 to 5 in groups 1, 1, 1, 1, 2: cut at index 1, the tail is
    made of the steps 2, 3 and 4. *)
Definition tailStep2 : Step := plainStep 2 1 (CommandData "make" "ok" "" 0).
Definition tailStep3 : Step := plainStep 3 1 (FileEditData "a.ts" ActUpdate "x").
Definition tailStep4 : Step := plainStep 4 1 (AssistantResponseData "done").

Definition tailSession : Session :=
  plainSession "s2"
    [plainStep 1 1 (PromptData "build it" None);
     tailStep2; tailStep3; tailStep4;
     plainStep 5 2 (PromptData "ship it" None)].

(** A store with one prompt step at address 1, its data at address 7. *)
Definition demoStore : Store :=
  mkStore
    {[ 1%positive := mkStep 1%Z "2025-01-01T00:00:00.000Z" 1%Z None None None
                       7%positive ]}
    {[ 7%positive := PromptData "hello" None ]}.

(** ** Callers of the branch constructor and of the comparison *)

(** An executor that gives back steps with the index of its input. *)
Definition preservesIndex {World} (execute : @Executor World) : Prop :=
  ∀ step w r w', execute step w = (Resolved r, w') →
                 stepIndex r = stepIndex step.

(** Steps of a session that share an index share their group. *)
Definition indexDeterminesGroup (S : Session) : Prop :=
  ∀ s s', s ∈ steps S → s' ∈ steps S →
          stepIndex s = stepIndex s' → group s = group s'.

(** [StepDetailHeader]: [step?.replayOf !== undefined]. *)
Definition isReplayedStep (step : Step) : bool :=
  bool_decide (replayOf step ≠ None).

(** [StepDetailHeader]: [steps.some(s => s.replayOf === step?.stepIndex)]. *)
Definition hasReplayedVersions (steps : list Step) (step : Step) : bool :=
  existsb (fun s => bool_decide (replayOf s = Some (stepIndex step))) steps.

(** [StepDetailHeader]: [steps.filter(s => s.replayOf === step.stepIndex)]. *)
Definition replayedVersions (steps : list Step) (step : Step) : list Step :=
  filter (fun s => replayOf s = Some (stepIndex step)) steps.

(** [StepList]: [step.replayOf && <Tag>Replay</Tag>]; a number is truthy
    unless it is 0. *)
Definition showsReplayTag (step : Step) : bool :=
  match replayOf step with
  | Some z => bool_decide (z ≠ 0%Z)
  | None => false
  end.

(** ** Step list ([components/StepList.tsx]) *)

(** The body of the [reduce] that groups the steps: the group's array
    is created when the object has none under that key, then the step
    is pushed onto it.  The object is a map from group numbers. *)
Definition groupStep (acc : gmap Z (list Step)) (step : Step)
  : gmap Z (list Step) :=
  let acc' :=
    match acc !! group step with
    | None => <[group step := []]> acc
    | Some _ => acc
    end in
  alter (fun l => l ++ [step]) (group step) acc'.

Definition groupedSteps (steps : list Step) : gmap Z (list Step) :=
  foldl groupStep ∅ steps.

(** [Object.keys(groupedSteps).map(Number).sort((a, b) => a - b)]. *)
Definition sortedGroups (steps : list Step) : list Z :=
  sort_by id (map fst (map_to_list (groupedSteps steps))).

(** The steps as the list shows them: group after group. *)
Definition stepsByGroup (steps : list Step) : list Step :=
  concat (map (fun g => default [] (groupedSteps steps !! g))
            (sortedGroups steps)).

Record SummaryStats := mkSummaryStats {
  statTotal : nat;
  statPrompts : nat;
  statFiles : nat;
  statCommands : nat;
  statResponses : nat
}.

Definition summaryStats (actionSteps : list Step) : SummaryStats :=
  mkSummaryStats
    (length actionSteps)
    (length (filter (fun s => type s = TPrompt) actionSteps))
    (length (filter (fun s => type s = TFileEdit) actionSteps))
    (length (filter (fun s => type s = TCommand) actionSteps))
    (length (filter (fun s => type s = TAssistantResponse) actionSteps)).

(** ** Diff viewer ([components/DiffViewer.tsx])

    The viewer lays out the changes that [Diff.diffLines] gives; the
    functions below take those changes as their input. *)

(** A change: a text with its two flags (an absent flag is false). *)
Record Change := mkChange {
  changeValue : string;
  changeAdded : bool;
  changeRemoved : bool
}.

(** A [DiffLine]; [originalLineNumber] is never set. *)
Record DiffLine := mkDiffLine {
  lineType : Kind;
  lineContent : string;
  lineNumber : nat
}.

#[global] Instance DiffLine_eq_dec : EqDecision DiffLine.
Proof. solve_decision. Defined.

(** [s.split('\n')]: the pieces between the newlines, at least one. *)
Fixpoint splitNewline (s : string) : list string :=
  match s with
  | EmptyString => [EmptyString]
  | String c s' =>
      if bool_decide (c = newline) then EmptyString :: splitNewline s'
      else
        match splitNewline s' with
        | piece :: pieces => String c piece :: pieces
        | [] => [String c EmptyString]
        end
  end.

(** [arr.filter((line, index, arr) => index < arr.length - 1 || line !== '')]. *)
Definition dropLastEmpty (arr : list string) : list string :=
  map snd
    (filter (fun p => (p.1 < length arr - 1)%nat ∨ p.2 ≠ EmptyString)
       (imap pair arr)).

(** The two panes under construction, with [leftLineNum] and
    [rightLineNum]. *)
Record Panes := mkPanes {
  leftLines : list DiffLine;
  rightLines : list DiffLine;
  leftLineNum : nat;
  rightLineNum : nat
}.

(** The line that fills the other pane next to an added or removed
    line. *)
Definition blankLine : DiffLine := mkDiffLine Unchanged EmptyString 0.

(** The body of [lines.forEach] for the three kinds of change. *)
Definition pushLine (change : Change) (p : Panes) (line : string) : Panes :=
  if changeAdded change then
    mkPanes (leftLines p ++ [blankLine])
      (rightLines p ++ [mkDiffLine Added line (rightLineNum p)])
      (leftLineNum p) (S (rightLineNum p))
  else if changeRemoved change then
    mkPanes (leftLines p ++ [mkDiffLine Removed line (leftLineNum p)])
      (rightLines p ++ [blankLine])
      (S (leftLineNum p)) (rightLineNum p)
  else
    mkPanes (leftLines p ++ [mkDiffLine Unchanged line (leftLineNum p)])
      (rightLines p ++ [mkDiffLine Unchanged line (rightLineNum p)])
      (S (leftLineNum p)) (S (rightLineNum p)).

(** The body of [changes.forEach] of the memo [diffLines]. *)
Definition pushChange (p : Panes) (change : Change) : Panes :=
  foldl (pushLine change) p (dropLastEmpty (splitNewline (changeValue change))).

Definition buildPanes (changes : list Change) : Panes :=
  foldl pushChange (mkPanes [] [] 1 1) changes.

Record DiffStats := mkDiffStats { additions : nat; deletions : nat }.

(** The body of [changes.forEach] of the memo [diffStats]. *)
Definition countChange (st : DiffStats) (change : Change) : DiffStats :=
  let lineCount := (length (splitNewline (changeValue change)) - 1)%nat in
  if changeAdded change then
    mkDiffStats (additions st + lineCount) (deletions st)
  else if changeRemoved change then
    mkDiffStats (additions st) (deletions st + lineCount)
  else st.

Definition diffStats (changes : list Change) : DiffStats :=
  foldl countChange (mkDiffStats 0 0) changes.

(** The last character of a text. *)
Fixpoint lastChar (s : string) : option ascii :=
  match s with
  | EmptyString => None
  | String c EmptyString => Some c
  | String _ s' => lastChar s'
  end.

(** A text that is not empty and does not end with a newline. *)
Definition unterminated (s : string) : bool :=
  match lastChar s with
  | Some c => bool_decide (c ≠ newline)
  | None => false
  end.

(** How the rows of the two panes face each other. *)
Definition rowAligned (l r : DiffLine) : Prop :=
  (lineType l = Removed ∧ lineNumber l ≠ 0%nat ∧ r = blankLine)
  ∨ (l = blankLine ∧ lineType r = Added ∧ lineNumber r ≠ 0%nat)
  ∨ (lineType l = Unchanged ∧ lineType r = Unchanged
     ∧ lineContent l = lineContent r
     ∧ lineNumber l ≠ 0%nat ∧ lineNumber r ≠ 0%nat).

Definition numbersOf (lines : list DiffLine) : list nat :=
  filter (fun n => n ≠ 0%nat) (map lineNumber lines).

Definition countType (k : Kind) (lines : list DiffLine) : nat :=
  length (filter (fun l => lineType l = k) lines).

(** Changes flagged as added, and as removed (and not added), whose
    text is not empty and does not end with a newline. *)
Definition openAdded (changes : list Change) : nat :=
  length (filter (fun c => changeAdded c = true
                           ∧ unterminated (changeValue c) = true) changes).

Definition openRemoved (changes : list Change) : nat :=
  length (filter (fun c => changeAdded c = false ∧ changeRemoved c = true
                           ∧ unterminated (changeValue c) = true) changes).

(** ** Comparison view ([components/SessionCompareView.tsx]) *)

Section CompareView.
(** [JSON.stringify(step.data, null, 2)]. *)
Variable JSON_stringify : StepData → string.

(** [getStepContent]: the text handed to the diff viewer; [None] is
    [undefined], the [response] of a prompt that has none. *)
Definition getStepContent (step : option Step) : option string :=
  match step with
  | None => Some EmptyString
  | Some s =>
      match data s with
      | PromptData _ response => response
      | FileEditData _ _ content => Some content
      | CommandData _ stdout _ _ => Some stdout
      | d => Some (JSON_stringify d)
      end
  end.
End CompareView.

(** The condition under which a row of the table has its Diff button:
    [record.status === 'modified' && record.originalStep &&
    record.replayStep]. *)
Definition showsDiffButton (record : StepComparison) : bool :=
  bool_decide (status record = modified)
  && bool_decide (is_Some (originalStep record))
  && bool_decide (is_Some (replayStep record)).

(** The description with which [compareSteps] reports a change of the
    field that [getStepContent] shows. *)
Definition contentDescription (t : StepType) : option string :=
  match t with
  | TPrompt => Some "Response output changed"
  | TFileEdit => Some "File content changed"
  | TCommand => Some "Standard output changed"
  | TAssistantResponse => None
  end.

(** ** Application state ([App.tsx]) and session list
    ([components/SessionList.tsx]) *)

Record SessionSummary := mkSessionSummary {
  summaryId : string;
  summaryTitle : string;
  summaryCreatedAt : string;
  stepCount : nat;
  lastActivity : string;
  summaryTags : list string;
  summaryReplayOf : option string;
  summaryReplayFromStepIndex : option Z;
  summaryIsReplaySession : option bool
}.

Inductive View := ViewSessions | ViewWorkflow | ViewCompare.

(** The part of the state of [App] that the two handlers below read and
    write. *)
Record AppState := mkAppState {
  sessions : list SessionSummary;
  allSessions : list Session;
  currentSession : option Session;
  selectedStep : option Z;
  view : View;
  compareData : option (Session * Session)
}.

(** [Array.from(new Set(xs))] on strings. *)
Definition uniqueStrings (xs : list string) : list string :=
  foldl (fun s x => if bool_decide (x ∈ s) then s else s ++ [x]) [] xs.

(** The summary that [handleReplayFromHere] builds. *)
Definition summarize (replaySession : Session) : SessionSummary :=
  mkSessionSummary
    (sessionId replaySession)
    (sessionTitle replaySession)
    (createdAt replaySession)
    (length (steps replaySession))
    (match last (steps replaySession) with
     | Some step =>
         if bool_decide (timestamp step = EmptyString)
         then createdAt replaySession else timestamp step
     | None => createdAt replaySession
     end)
    (uniqueStrings
       (concat (map (fun step => default [] (tags step))
                  (steps replaySession))))
    (sessionReplayOf replaySession)
    (replayFromStepIndex replaySession)
    (isReplaySession replaySession).

(** [replaySession.steps[0]?.stepIndex || null]. *)
Definition firstStepIndex (s : Session) : option Z :=
  match steps s with
  | step :: _ =>
      if bool_decide (stepIndex step = 0%Z) then None
      else Some (stepIndex step)
  | [] => None
  end.

(** [handleReplayFromHere]; [App] passes [mockExecuteStep] as the
    executor.  An error thrown by [createReplaySession] is caught and
    logged. *)
Definition handleReplayFromHere {World} (now : World → string * World)
    (mockExecuteStep : @Executor World) (st : AppState) (fromStep : Step)
  : @M World AppState :=
  match currentSession st with
  | None => ret st
  | Some current =>
      bind (createReplaySession now current (stepIndex fromStep)
              mockExecuteStep)
        (fun outcome =>
           match outcome with
           | Returned replaySession =>
               ret (mkAppState
                      (sessions st ++ [summarize replaySession])
                      (allSessions st ++ [replaySession])
                      (Some replaySession)
                      (firstStepIndex replaySession)
                      (view st)
                      (compareData st))
           | Thrown _ => ret st
           end)
  end.

(** [allSessions.find(s => s.sessionId === id)]. *)
Definition findSession (id : string) (l : list Session) : option Session :=
  List.find (fun s => bool_decide (sessionId s = id)) l.

Definition handleCompareSession (st : AppState)
    (originalSessionId replaySessionId : string) : AppState :=
  match findSession originalSessionId (allSessions st),
        findSession replaySessionId (allSessions st) with
  | Some originalSession, Some replaySession =>
      mkAppState (sessions st) (allSessions st) (currentSession st)
        (selectedStep st) ViewCompare (Some (originalSession, replaySession))
  | _, _ => st
  end.

(** A string is truthy unless it is empty. *)
Definition truthyString (o : option string) : bool :=
  match o with
  | Some s => bool_decide (s ≠ EmptyString)
  | None => false
  end.

(** [SessionList]: [session.isReplaySession || session.replayOf]. *)
Definition isReplaySessionSummary (session : SessionSummary) : bool :=
  bool_decide (summaryIsReplaySession session = Some true)
  || truthyString (summaryReplayOf session).

(** [sessions.find(s => s.sessionId === replaySession.replayOf)]. *)
Definition getOriginalSession (l : list SessionSummary)
    (replaySession : SessionSummary) : option SessionSummary :=
  List.find (fun s => bool_decide (Some (summaryId s)
                                   = summaryReplayOf replaySession)) l.

(** [sessions.filter(s => s.replayOf === originalSessionId)]. *)
Definition getReplaySessions (l : list SessionSummary)
    (originalSessionId : string) : list SessionSummary :=
  filter (fun s => summaryReplayOf s = Some originalSessionId) l.

(** The condition under which a card of the list has its compare
    button: [isReplaySession(session) && session.replayOf]. *)
Definition showsCompareButton (session : SessionSummary) : bool :=
  isReplaySessionSummary session && truthyString (summaryReplayOf session).

(** ** The mock executor ([mockExecuteStep] and the three functions it
    dispatches to) *)

(** [s.includes(needle)].  The needles of the code are ASCII, for which
    a search among bytes finds what a search among code units finds. *)
Fixpoint includes (s needle : string) : bool :=
  String.prefix needle s
  || match s with
     | EmptyString => false
     | String _ s' => includes s' needle
     end.

(** [{ ...step, data: d }]. *)
Definition withStepData (step : Step) (d : StepData) : Step :=
  mkStep (stepIndex step) (timestamp step) (group step) (title step)
    (tags step) (replayOf step) d.

(** One element of the arrays [variations] of [mockExecuteCommandStep]. *)
Record Variation := mkVariation {
  varStdout : string;
  varStderr : string;
  varExitCode : Z
}.

(** What the mock executor takes from outside, and the texts it writes.
    [randomBelow n] is [Math.floor(Math.random() * n)], a draw that
    changes the world.  The wording of the texts is not modelled: a
    generator is a function of the original text (and of the world,
    where its code draws random numbers or reads the clock), a note is a
    string constant, [replace...] is the [String.replace] with a regular
    expression of the branch named, and [variedContent] is the choice of
    a file generator by the extension of the path together with that
    generator.  [typeError] is the message of the [TypeError] that
    calling a method of [undefined] raises. *)
Record Texts (World : Type) := mkTexts {
  randomBelow : nat → World → nat * World;
  typeError : string;
  generateAlternativeImplementation : string → World → string * World;
  generateImprovedSolution : string → string;
  generateOptimizedVersion : string → string;
  generateDifferentApproach : string → string;
  generateTextVariation : string → nat → string;
  replacePackageCounts : string → World → string * World;
  replaceBuildTimes : string → World → string * World;
  replaceTestTimes : string → World → string * World;
  replaceNumbers : string → World → string * World;
  installNote0 : string;
  installNote1 : string;
  buildNote : string;
  testNote0 : string;
  testNote1 : string;
  gitStatusNote : string;
  gitLogNote : string;
  genericNote0 : string;
  genericNote1 : string;
  replayWarning : string;
  variedContent : string → string → World → string * World
}.
Arguments randomBelow {World} _ _ _.
Arguments typeError {World} _.
Arguments generateAlternativeImplementation {World} _ _ _.
Arguments generateImprovedSolution {World} _ _.
Arguments generateOptimizedVersion {World} _ _.
Arguments generateDifferentApproach {World} _ _.
Arguments generateTextVariation {World} _ _ _.
Arguments replacePackageCounts {World} _ _ _.
Arguments replaceBuildTimes {World} _ _ _.
Arguments replaceTestTimes {World} _ _ _.
Arguments replaceNumbers {World} _ _ _.
Arguments installNote0 {World} _.
Arguments installNote1 {World} _.
Arguments buildNote {World} _.
Arguments testNote0 {World} _.
Arguments testNote1 {World} _.
Arguments gitStatusNote {World} _.
Arguments gitLogNote {World} _.
Arguments genericNote0 {World} _.
Arguments genericNote1 {World} _.
Arguments replayWarning {World} _.
Arguments variedContent {World} _ _ _ _.

Section MockExecutor.
Context {World : Type} (T : Texts World).

(** [mockExecutePromptStep].  The variation type is drawn first, as an
    index into [variationTypes]; then [originalResponse.includes] throws
    when the prompt has no [response]. *)
Definition mockExecutePromptStep (step : Step) (prompt : string)
    (response : option string) : World → Settled * World :=
  fun w =>
    let (variationType, w1) := randomBelow T 5 w in
    match response with
    | None => (Rejected (typeError T), w1)
    | Some originalResponse =>
        let hasCode :=
          includes originalResponse "```"
          || includes originalResponse "function"
          || includes originalResponse "class" in
        let (newResponse, w2) :=
          if hasCode then
            match variationType with
            | 0%nat => generateAlternativeImplementation T originalResponse w1
            | 1%nat => (generateImprovedSolution T originalResponse, w1)
            | 3%nat => (generateOptimizedVersion T originalResponse, w1)
            | _ => (generateDifferentApproach T originalResponse, w1)
            end
          else (generateTextVariation T originalResponse variationType, w1) in
        (Resolved (withStepData step (PromptData prompt (Some newResponse))),
         w2)
    end.

(** [{ ...step, data: { ...step.data, ...variation } }], where
    [variation] is [variations[k]]: nothing is spread when the index is
    out of range. *)
Definition applyVariation (step : Step) (command stdout stderr : string)
    (exitCode : Z) (variation : option Variation) : Step :=
  match variation with
  | Some v =>
      withStepData step
        (CommandData command (varStdout v) (varStderr v) (varExitCode v))
  | None => withStepData step (CommandData command stdout stderr exitCode)
  end.

(** [mockExecuteCommandStep].  The array [variations] is built in full,
    with the draws of its elements, before one of them is drawn.  In the
    first variation of a test command the replacement puts back what it
    matched. *)
Definition mockExecuteCommandStep (step : Step)
    (command originalStdout newStderr : string) (newExitCode : Z)
  : World → Step * World :=
  fun w =>
    let pick := applyVariation step command originalStdout newStderr
                  newExitCode in
    if includes command "npm install" || includes command "yarn install" then
      let (out0, w1) := replacePackageCounts T originalStdout w in
      let variations :=
        [mkVariation (out0 +:+ installNote0 T) newStderr 0;
         mkVariation (originalStdout +:+ installNote1 T) newStderr 0] in
      let (k, w2) := randomBelow T (length variations) w1 in
      (pick (variations !! k), w2)
    else if includes command "npm run build"
            || includes command "yarn build" then
      let (out0, w1) := replaceBuildTimes T originalStdout w in
      let variations := [mkVariation (out0 +:+ buildNote T) newStderr 0] in
      let (k, w2) := randomBelow T (length variations) w1 in
      (pick (variations !! k), w2)
    else if includes command "test" || includes command "jest"
            || includes command "vitest" then
      let (out1, w1) := replaceTestTimes T originalStdout w in
      let variations :=
        [mkVariation (originalStdout +:+ testNote0 T) newStderr 0;
         mkVariation (out1 +:+ testNote1 T) newStderr 0] in
      let (k, w2) := randomBelow T (length variations) w1 in
      (pick (variations !! k), w2)
    else if includes command "git" then
      let newStdout :=
        if includes command "git status" then
          originalStdout +:+ gitStatusNote T
        else if includes command "git log" then
          originalStdout +:+ gitLogNote T
        else originalStdout in
      (withStepData step
         (CommandData command newStdout newStderr newExitCode), w)
    else
      let (out1, w1) := replaceNumbers T originalStdout w in
      let genericVariations :=
        [mkVariation (originalStdout +:+ genericNote0 T) newStderr
           newExitCode;
         mkVariation (out1 +:+ genericNote1 T) newStderr newExitCode;
         mkVariation originalStdout
           ((if bool_decide (newStderr = EmptyString) then EmptyString
             else newStderr +:+ String newline EmptyString)
            +:+ replayWarning T)
           newExitCode] in
      let (k, w2) := randomBelow T (length genericVariations) w1 in
      (pick (genericVariations !! k), w2).

(** [mockExecuteFileEditStep]. *)
Definition mockExecuteFileEditStep (step : Step) (filePath : string)
    (action : FileAction) (originalContent : string)
  : World → Step * World :=
  fun w =>
    let (modifiedContent, w1) :=
      match action with
      | ActCreate | ActUpdate => variedContent T filePath originalContent w
      | ActDelete => (originalContent, w)
      end in
    (withStepData step (FileEditData filePath action modifiedContent), w1).

(** [mockExecuteStep]: the [switch] on the type of the step. *)
Definition mockExecuteStep : Executor :=
  fun step w =>
    match data step with
    | PromptData prompt response =>
        mockExecutePromptStep step prompt response w
    | CommandData command stdout stderr exitCode =>
        let (result, w') :=
          mockExecuteCommandStep step command stdout stderr exitCode w in
        (Resolved result, w')
    | FileEditData path action content =>
        let (result, w') :=
          mockExecuteFileEditStep step path action content w in
        (Resolved result, w')
    | AssistantResponseData _ => (Resolved step, w)
    end.
End MockExecutor.

(** The commands that [mockExecuteCommandStep] treats as an
    installation, a build or a test run; it tests for them in this
    order, before it tests for [git]. *)
Definition forcesExitZero (command : string) : bool :=
  includes command "npm install" || includes command "yarn install"
  || includes command "npm run build" || includes command "yarn build"
  || includes command "test" || includes command "jest"
  || includes command "vitest".

(** A prompt without [response], as [PromptStep] declares it. *)
Definition lacksResponse (step : Step) : bool :=
  match data step with
  | PromptData _ None => true
  | _ => false
  end.

(** A draw stays below its bound. *)
Definition drawsBelow {World} (T : Texts World) : Prop :=
  ∀ n w, (0 < n)%nat → ((randomBelow T n w).1 < n)%nat.

(** Texts for the examples: the world counts the draws. *)
Definition demoTexts : Texts nat :=
  mkTexts nat
    (fun n w => (w `mod` n, S w))%nat
    "TypeError"
    (fun s w => (s +:+ " (alternative)", S w))
    (fun s => s +:+ " (improved)")
    (fun s => s +:+ " (optimized)")
    (fun s => s +:+ " (different)")
    (fun s _ => s +:+ " (variation)")
    (fun s w => (s, S w))
    (fun s w => (s, S w))
    (fun s w => (s, S w))
    (fun s w => (s, S w))
    " install-0" " install-1" " build" " test-0" " test-1"
    " git-status" " git-log" " generic-0" " generic-1" "warning"
    (fun _ s w => (s +:+ " (edited)", S w)).

(** ** Properties of the array helpers *)

Section Sorting.
Context {A : Type} (key : A → Z).

Lemma insert_by_Permutation (x : A) (l : list A) :
  insert_by key x l ≡ₚ x :: l.
Proof.
  induction l as [|y l IH]; simpl; [done|].
  case_bool_decide; [|done].
  rewrite IH. apply Permutation_swap.
Qed.

Lemma sort_by_Permutation (l : list A) : sort_by key l ≡ₚ l.
Proof.
  induction l as [|x l IH]; simpl; [done|].
  rewrite insert_by_Permutation. by f_equiv.
Qed.

Lemma elem_of_sort_by (x : A) (l : list A) : x ∈ sort_by key l ↔ x ∈ l.
Proof. by rewrite sort_by_Permutation. Qed.

Lemma length_sort_by (l : list A) : length (sort_by key l) = length l.
Proof. by rewrite sort_by_Permutation. Qed.

Lemma insert_by_sorted (x : A) (l : list A) :
  StronglySorted (key_le key) l → StronglySorted (key_le key) (insert_by key x l).
Proof.
  induction 1 as [|y l Hs IH Hy]; simpl.
  - repeat constructor.
  - case_bool_decide as Hlt.
    + constructor; [done|].
      apply Forall_forall. intros z Hz.
      apply (elem_of_Permutation_proper _ _ _ (insert_by_Permutation x l)) in Hz.
      apply elem_of_cons in Hz as [->|Hz].
      * unfold key_le. lia.
      * by eapply Forall_forall in Hy.
    + constructor; [by constructor|].
      constructor; [unfold key_le; lia|].
      eapply Forall_impl; [exact Hy|].
      unfold key_le. intros z Hz. simpl in *. lia.
Qed.

Lemma sort_by_sorted (l : list A) : StronglySorted (key_le key) (sort_by key l).
Proof.
  induction l as [|x l IH]; simpl; [constructor|].
  by apply insert_by_sorted.
Qed.
End Sorting.

Lemma sorted_NoDup_lt (l : list Z) :
  StronglySorted (key_le id) l → NoDup l → StronglySorted Z.lt l.
Proof.
  induction 1 as [|x l Hs IH Hx]; intros Hnd; [constructor|].
  apply NoDup_cons in Hnd as [Hnotin Hnd].
  constructor; [by apply IH|].
  apply Forall_forall. intros y Hy.
  pose proof (proj1 (Forall_forall _ _) Hx y Hy) as Hle.
  unfold key_le, id in Hle.
  assert (x ≠ y) by (intros ->; done). lia.
Qed.

Lemma elem_of_foldl_Set_add (x : Z) (l s : list Z) :
  x ∈ foldl Set_add s l ↔ x ∈ s ∨ x ∈ l.
Proof.
  revert s. induction l as [|y l IH]; intros s; simpl.
  - rewrite elem_of_nil. tauto.
  - rewrite IH, elem_of_cons. unfold Set_add.
    case_bool_decide as Hy.
    + split; [tauto|]. intros [?|[->|?]]; tauto.
    + rewrite elem_of_app, list_elem_of_singleton. tauto.
Qed.

Lemma NoDup_foldl_Set_add (l s : list Z) :
  NoDup s → NoDup (foldl Set_add s l).
Proof.
  revert s. induction l as [|y l IH]; intros s Hs; simpl; [done|].
  apply IH. unfold Set_add. case_bool_decide as Hy; [done|].
  apply NoDup_app. split_and!; [done| |apply NoDup_singleton].
  intros z Hz Hz'. apply list_elem_of_singleton in Hz'. by subst.
Qed.

Lemma elem_of_new_Set (x : Z) (l : list Z) : x ∈ new_Set l ↔ x ∈ l.
Proof.
  unfold new_Set. rewrite elem_of_foldl_Set_add, elem_of_nil. tauto.
Qed.

Lemma NoDup_new_Set (l : list Z) : NoDup (new_Set l).
Proof. apply NoDup_foldl_Set_add, NoDup_nil_2. Qed.

Lemma findStep_Some (i : Z) (l : list Step) (s : Step) :
  findStep i l = Some s → s ∈ l ∧ stepIndex s = i.
Proof.
  unfold findStep. intros H. apply find_some in H as [Hin Hb].
  apply bool_decide_eq_true in Hb. by rewrite list_elem_of_In.
Qed.

Lemma findStep_None (i : Z) (l : list Step) :
  findStep i l = None ↔ i ∉ map stepIndex l.
Proof.
  unfold findStep. split.
  - intros H Hin. apply list_elem_of_fmap in Hin as (s & -> & Hs).
    apply list_elem_of_In in Hs.
    pose proof (find_none _ _ H _ Hs) as Hb. simpl in Hb.
    by apply bool_decide_eq_false in Hb.
  - intros Hnotin.
    destruct (List.find (fun s => bool_decide (stepIndex s = i)) l)
      as [s|] eqn:E; [|done].
    apply find_some in E as [Hin Hb]. apply bool_decide_eq_true in Hb.
    exfalso. apply Hnotin. subst i. apply list_elem_of_fmap.
    exists s. by rewrite list_elem_of_In.
Qed.

Lemma findStep_is_Some (i : Z) (l : list Step) :
  is_Some (findStep i l) ↔ i ∈ map stepIndex l.
Proof.
  rewrite <- not_eq_None_Some, findStep_None.
  destruct (decide (i ∈ map stepIndex l)); tauto.
Qed.

(** ** Properties of the comparison engine *)

Lemma changed_nil `{EqDecision A} (a b : A) (d : string) :
  changed a b d = [] ↔ a = b.
Proof.
  unfold changed. case_bool_decide as H; split; try done.
Qed.

Lemma length_changed `{EqDecision A} (a b : A) (d : string) :
  length (changed a b d) = differs a b.
Proof. unfold changed, differs. by case_bool_decide. Qed.

(** Steps of different types: one description, nothing else. *)
Lemma compareSteps_type_changed (o r : Step) :
  type o ≠ type r →
  compareSteps o r =
    ["Type changed from " +:+ type_name (type o) +:+ " to "
       +:+ type_name (type r)].
Proof. intros H. unfold compareSteps. by rewrite bool_decide_eq_true_2. Qed.

(** Prompt, command and file-edit steps: one description per payload
    field that differs. *)
Lemma compareSteps_length (o r : Step) :
  type o = type r → type o ≠ TAssistantResponse →
  length (compareSteps o r) = payloadMismatches (data o) (data r).
Proof.
  unfold compareSteps, type. intros Ht Hna.
  rewrite bool_decide_eq_false_2 by (intros H; done).
  destruct (data o), (data r); simpl in *; try done;
    rewrite ?length_app, ?length_changed; lia.
Qed.

Lemma compareSteps_nil_iff (o r : Step) :
  type o ≠ TAssistantResponse →
  compareSteps o r = [] ↔ data o = data r.
Proof.
  unfold compareSteps, type. intros Hna.
  case_bool_decide as Ht.
  - split; [done|]. intros E. by rewrite E in Ht.
  - destruct (data o), (data r); simpl in *;
      try done; try (exfalso; apply Ht; discriminate);
      rewrite ?app_nil, ?changed_nil;
      (split; [intros; destruct_and!; by subst | intros [=]; by subst]).
Qed.

(** Two assistant responses are never told apart. *)
Lemma compareSteps_assistant_response (o r : Step) :
  type o = TAssistantResponse → type r = TAssistantResponse →
  compareSteps o r = [].
Proof.
  unfold compareSteps, type. intros Ho Hr.
  rewrite bool_decide_eq_false_2 by (rewrite Ho, Hr; intros H; done).
  by destruct (data o), (data r).
Qed.

Lemma cmpStepIndex_compareAt (a b : Session) (i : Z) :
  cmpStepIndex (compareAt a b i) = i.
Proof.
  unfold compareAt.
  by destruct (findStep i (steps a)), (findStep i (steps b)).
Qed.

Lemma originalStep_compareAt (a b : Session) (i : Z) :
  originalStep (compareAt a b i) = findStep i (steps a).
Proof.
  unfold compareAt.
  by destruct (findStep i (steps a)), (findStep i (steps b)).
Qed.

Lemma replayStep_compareAt (a b : Session) (i : Z) :
  replayStep (compareAt a b i) = findStep i (steps b).
Proof.
  unfold compareAt.
  by destruct (findStep i (steps a)), (findStep i (steps b)).
Qed.

Lemma map_cmpStepIndex_compareAt (a b : Session) (l : list Z) :
  map cmpStepIndex (map (compareAt a b) l) = l.
Proof.
  induction l as [|i l IH]; simpl; [done|].
  by rewrite cmpStepIndex_compareAt, IH.
Qed.

Lemma elem_of_allStepIndices (a b : Session) (i : Z) :
  i ∈ sort_by id (allStepIndices a b) ↔ i ∈ indices a ∨ i ∈ indices b.
Proof.
  unfold allStepIndices, indices.
  by rewrite elem_of_sort_by, elem_of_new_Set, elem_of_app.
Qed.

Lemma allStepIndices_ascending (a b : Session) :
  StronglySorted Z.lt (sort_by id (allStepIndices a b)).
Proof.
  apply sorted_NoDup_lt; [apply sort_by_sorted|].
  rewrite sort_by_Permutation. apply NoDup_new_Set.
Qed.

Lemma elem_of_stepComparisons (a b : Session) (c : StepComparison) :
  c ∈ stepComparisons (compareSessions a b) →
  c = compareAt a b (cmpStepIndex c)
  ∧ (cmpStepIndex c ∈ indices a ∨ cmpStepIndex c ∈ indices b).
Proof.
  simpl. intros Hc. apply list_elem_of_fmap in Hc as (i & -> & Hi).
  rewrite cmpStepIndex_compareAt. split; [done|].
  by apply elem_of_allStepIndices.
Qed.

Lemma countStatus_total (l : list StepComparison) :
  (countStatus identical l + countStatus modified l
   + countStatus added l + countStatus removed l = length l)%nat.
Proof.
  unfold countStatus. induction l as [|c l IH]; simpl; [done|].
  rewrite !filter_cons.
  destruct (status c); repeat case_decide; try done; simpl; lia.
Qed.

(** An index present in both sessions: the entry is [identical] when
    [compareSteps] reports nothing and [modified] otherwise, with the
    descriptions it reports. *)
Lemma compareAt_aligned (a b : Session) (i : Z) (o p : Step) :
  findStep i (steps a) = Some o → findStep i (steps b) = Some p →
  differences (compareAt a b i) = compareSteps o p
  ∧ (status (compareAt a b i) = identical ↔ compareSteps o p = [])
  ∧ (status (compareAt a b i) = modified ↔ compareSteps o p ≠ []).
Proof.
  intros Ho Hp. unfold compareAt. rewrite Ho, Hp. simpl.
  by destruct (compareSteps o p).
Qed.

(** For prompts, commands and file edits the entry is [identical]
    exactly when the two payloads are equal. *)
Lemma compareAt_identical_iff (a b : Session) (i : Z) (o p : Step) :
  findStep i (steps a) = Some o → findStep i (steps b) = Some p →
  type o ≠ TAssistantResponse →
  status (compareAt a b i) = identical ↔ data o = data p.
Proof.
  intros Ho Hp Hna.
  destruct (compareAt_aligned a b i o p Ho Hp) as (_ & -> & _).
  by apply compareSteps_nil_iff.
Qed.

(** C4: the comparison has one entry per index of the union of the two
    sessions' step indices, in strictly ascending order; an index only
    in the first session is [removed], one only in the second [added];
    the two totals are the lengths of the inputs and each status count
    is the number of entries with that status. *)
Theorem compareSessions_union (a b : Session) :
  let r := compareSessions a b in
  let cs := stepComparisons r in
  StronglySorted Z.lt (map cmpStepIndex cs)
  ∧ (∀ i, i ∈ map cmpStepIndex cs ↔ i ∈ indices a ∨ i ∈ indices b)
  ∧ (∀ c, c ∈ cs → cmpStepIndex c ∈ indices a →
          cmpStepIndex c ∉ indices b → status c = removed)
  ∧ (∀ c, c ∈ cs → cmpStepIndex c ∉ indices a →
          cmpStepIndex c ∈ indices b → status c = added)
  ∧ totalStepsOriginal (summary r) = length (steps a)
  ∧ totalStepsReplay (summary r) = length (steps b)
  ∧ identicalSteps (summary r)
      = length (filter (fun c => status c = identical) cs)
  ∧ modifiedSteps (summary r)
      = length (filter (fun c => status c = modified) cs)
  ∧ addedSteps (summary r) = length (filter (fun c => status c = added) cs)
  ∧ removedSteps (summary r)
      = length (filter (fun c => status c = removed) cs).
Proof.
  intros r cs. subst r cs.
  split_and!; try reflexivity.
  - simpl. rewrite map_cmpStepIndex_compareAt. apply allStepIndices_ascending.
  - intros i. simpl. rewrite map_cmpStepIndex_compareAt.
    apply elem_of_allStepIndices.
  - intros c Hc Ha Hb. apply elem_of_stepComparisons in Hc as [Hc _].
    apply findStep_is_Some in Ha as [o Ho]. apply findStep_None in Hb.
    rewrite Hc. unfold compareAt. by rewrite Ho, Hb.
  - intros c Hc Ha Hb. apply elem_of_stepComparisons in Hc as [Hc _].
    apply findStep_is_Some in Hb as [o Ho]. apply findStep_None in Ha.
    rewrite Hc. unfold compareAt. by rewrite Ho, Ha.
Qed.

(** C10: in every entry of a comparison, [removed] goes with an original
    step and no replay step, [added] with a replay step and no original
    step, [identical] and [modified] with both; the list of differences
    is empty exactly for [identical]; the four status counts add up to
    the number of entries. *)
Theorem compareSessions_invariant (a b : Session) :
  let r := compareSessions a b in
  (∀ c, c ∈ stepComparisons r →
     (status c = removed → is_Some (originalStep c) ∧ replayStep c = None)
     ∧ (status c = added → originalStep c = None ∧ is_Some (replayStep c))
     ∧ (status c = identical ∨ status c = modified →
        is_Some (originalStep c) ∧ is_Some (replayStep c))
     ∧ (differences c = [] ↔ status c = identical))
  ∧ (identicalSteps (summary r) + modifiedSteps (summary r)
     + addedSteps (summary r) + removedSteps (summary r)
     = length (stepComparisons r))%nat.
Proof.
  intros r. subst r. split; [|apply countStatus_total].
  intros c Hc. apply elem_of_stepComparisons in Hc as [Hc Hin].
  unfold indices in Hin. rewrite <- !findStep_is_Some in Hin.
  rewrite Hc. clear Hc. unfold compareAt.
  destruct (findStep (cmpStepIndex c) (steps a)) as [o|] eqn:Eo,
           (findStep (cmpStepIndex c) (steps b)) as [p|] eqn:Ep; simpl.
  - destruct (compareSteps o p) as [|d ds] eqn:Ed; simpl;
      split_and!; try done; intros _; eauto.
  - split_and!; try done; try (by intros [?|?]); intros _; eauto.
  - split_and!; try done; try (by intros [?|?]); intros _; eauto.
  - destruct Hin as [[? ?]|[? ?]]; done.
Qed.

(** C1, at the failing input: two sessions whose only step, at index 1,
    is an assistant response, with different responses.  The payloads
    differ, yet the pair is classified [identical] with no difference
    reported: [compareSteps] has no case for assistant responses. *)
Theorem compareSessions_assistant_response_identical :
  let o := plainStep 1 1 (AssistantResponseData "yes") in
  let p := plainStep 1 1 (AssistantResponseData "no") in
  type o = type p ∧ data o ≠ data p
  ∧ payloadMismatches (data o) (data p) = 1%nat
  ∧ map (fun c => (cmpStepIndex c, status c, differences c))
      (stepComparisons
         (compareSessions (plainSession "a" [o]) (plainSession "b" [p])))
    = [(1%Z, identical, [])].
Proof. split_and!; [done | done | done | reflexivity]. Qed.

(** The scenario of the specification: same command and output, another
    standard error and another exit code give [modified] with exactly
    two descriptions. *)
Example compareSessions_command_scenario :
  let o := plainStep 1 1 (CommandData "make" "ok" "" 0) in
  let p := plainStep 1 1 (CommandData "make" "ok" "failed" 1) in
  map (fun c => (status c, differences c))
    (stepComparisons
       (compareSessions (plainSession "a" [o]) (plainSession "b" [p])))
  = [(modified,
      ["Standard error changed"; "Exit code changed from 0 to 1"])].
Proof. reflexivity. Qed.

(** The scenario of the specification: indices 1, 2, 3 against 1, 2, 4. *)
Example compareSessions_removed_added_scenario :
  let st i := plainStep i 1 (PromptData "p" None) in
  let r := compareSessions (plainSession "a" [st 1; st 2; st 3]%Z)
             (plainSession "b" [st 1; st 2; st 4]%Z) in
  map (fun c => (cmpStepIndex c, status c)) (stepComparisons r)
  = [(1, identical); (2, identical); (3, removed); (4, added)]%Z
  ∧ removedSteps (summary r) = 1%nat ∧ addedSteps (summary r) = 1%nat.
Proof. split_and!; reflexivity. Qed.

(** ** Properties of the branch constructor *)

Lemma spread_id {D} (step : StepOf D) : spread step = step.
Proof. by destruct step. Qed.

Lemma map_spread_id {D} (l : list (StepOf D)) : map spread l = l.
Proof. induction l as [|x l IH]; simpl; [done|]. by rewrite spread_id, IH. Qed.

Section BranchProperties.
Context {World : Type} (now : World → string * World).
Context (execute : @Executor World).

Lemma resolvedRun_length todo w rs w' :
  resolvedRun now execute todo w rs w' → length rs = length todo.
Proof. induction 1; simpl; [done|]. by f_equal. Qed.

(** Every step of a resolved run carries the index of the step it
    replays and the time read from the clock just after the executor
    gave it. *)
Lemma resolvedRun_tags todo w rs w' :
  resolvedRun now execute todo w rs w' →
  Forall2
    (fun o r => replayOf r = Some (stepIndex o)
                ∧ ∃ v r0 v1, execute o v = (Resolved r0, v1)
                             ∧ timestamp r = (now v1).1
                             ∧ group r = group r0 ∧ data r = data r0
                             ∧ stepIndex r = stepIndex r0)
    todo rs.
Proof.
  induction 1 as [|o rest w r0 w1 t w2 rs w3 He Hn _ IH]; constructor;
    [|done].
  split; [done|]. exists w, r0, w1. by rewrite Hn.
Qed.

(** While the executor resolves, the loop goes on. *)
Lemma replayLoop_resolved done w rs w' :
  resolvedRun now execute done w rs w' →
  ∀ (rest acc cs : list Step),
    replayLoop now execute (done ++ rest) acc (mkEnv w cs)
    = replayLoop now execute rest (acc ++ rs) (mkEnv w' (cs ++ done)).
Proof.
  induction 1 as [|o done w r0 w1 t w2 rs w3 He Hn _ IH]; intros rest acc cs.
  - by rewrite !app_nil_r.
  - simpl. unfold bind at 1, await_execute. simpl. rewrite He.
    unfold bind at 1, date_now. simpl. rewrite Hn.
    rewrite IH. by rewrite <- !app_assoc.
Qed.

(** When the executor rejects, the loop ends with what it has. *)
Lemma replayLoop_rejected done e rs w1 failing reason w2 rest :
  resolvedRun now execute done (world e) rs w1 →
  execute failing w1 = (Rejected reason, w2) →
  replayLoop now execute (done ++ failing :: rest) [] e
  = (rs, mkEnv w2 (calls e ++ done ++ [failing])).
Proof.
  intros Hrun Hrej. destruct e as [w cs]. simpl in *.
  rewrite (replayLoop_resolved _ _ _ _ Hrun). simpl.
  unfold bind, await_execute. simpl. rewrite Hrej.
  by rewrite <- app_assoc.
Qed.

(** The loop in full: it replays a prefix of its list, and either the
    list is exhausted or the executor rejected the next step, which is
    then the last one it was called on. *)
Lemma replayLoop_spec (todo : list Step) :
  ∀ (acc : list Step) w (cs : list Step),
  ∃ (done rest rs : list Step) w1 e',
    todo = done ++ rest
    ∧ resolvedRun now execute done w rs w1
    ∧ replayLoop now execute todo acc (mkEnv w cs) = (acc ++ rs, e')
    ∧ ((rest = [] ∧ e' = mkEnv w1 (cs ++ done))
       ∨ ∃ failing rest' reason w2,
           rest = failing :: rest'
           ∧ execute failing w1 = (Rejected reason, w2)
           ∧ e' = mkEnv w2 (cs ++ done ++ [failing])).
Proof.
  induction todo as [|o todo IH]; intros acc w cs.
  - exists [], [], [], w, (mkEnv w cs). split_and!; try done.
    + constructor.
    + simpl. by rewrite app_nil_r.
    + left. by rewrite app_nil_r.
  - destruct (execute o w) as [[r0|reason] w1] eqn:He.
    + destruct (now w1) as [t w2] eqn:Hn.
      destruct (IH (acc ++ [tagReplay r0 (stepIndex o) t]) w2 (cs ++ [o]))
        as (done & rest & rs & w3 & e' & -> & Hrun & Hloop & Hend).
      exists (o :: done), rest, (tagReplay r0 (stepIndex o) t :: rs), w3, e'.
      split_and!; [done|by econstructor| |].
      * simpl. unfold bind at 1, await_execute. simpl. rewrite He.
        unfold bind at 1, date_now. simpl. rewrite Hn.
        rewrite Hloop. by rewrite <- app_assoc.
      * destruct Hend as [[-> ->]|(f & rest' & reason & w4 & -> & Hf & ->)].
        -- left. by rewrite <- app_assoc.
        -- right. exists f, rest', reason, w4.
           by rewrite <- !app_assoc.
    + exists [], (o :: todo), [], w, (mkEnv w1 (cs ++ [o])).
      split_and!; [done|constructor| |].
      * simpl. unfold bind at 1, await_execute. simpl. rewrite He.
        by rewrite app_nil_r.
      * right. by exists o, todo, reason, w1.
Qed.

(** What the constructor returns once the cut step is found, in terms
    of what its loop gave. *)
Lemma createReplaySession_found S i fromStep e rs e1 t w2 created w3 :
  findStep i (steps S) = Some fromStep →
  replayLoop now execute
    (stepsToReplayInSameGroup S (group fromStep) i) [] e = (rs, e1) →
  now (world e1) = (t, w2) →
  now w2 = (created, w3) →
  createReplaySession now S i execute e
  = (Returned
       (mkSession (sessionId S +:+ "-replay-" +:+ strip_colon_dot t)
          ("Replay of " +:+ sessionTitle S) created
          (unchangedStepsOf S (group fromStep) ++ rs)
          (Some (sessionId S)) (Some i) (Some true)),
     mkEnv w3 (calls e1)).
Proof.
  intros Hf Hl Ht Hc. unfold createReplaySession. rewrite Hf.
  unfold bind at 1. rewrite Hl.
  unfold generateReplaySessionId, bind, date_now, ret. simpl.
  rewrite Ht. simpl. by rewrite Hc.
Qed.

Lemma createReplaySession_returns S i fromStep e rs e1 :
  findStep i (steps S) = Some fromStep →
  replayLoop now execute
    (stepsToReplayInSameGroup S (group fromStep) i) [] e = (rs, e1) →
  ∃ sess w',
    createReplaySession now S i execute e
    = (Returned sess, mkEnv w' (calls e1))
    ∧ steps sess = unchangedStepsOf S (group fromStep) ++ rs
    ∧ sessionReplayOf sess = Some (sessionId S)
    ∧ replayFromStepIndex sess = Some i
    ∧ isReplaySession sess = Some true.
Proof.
  intros Hf Hl.
  destruct (now (world e1)) as [t w2] eqn:Ht.
  destruct (now w2) as [created w3] eqn:Hc.
  eexists _, _. split; [by eapply createReplaySession_found|]. done.
Qed.

Lemma elem_of_stepsToReplay S g i (o : Step) :
  o ∈ stepsToReplayInSameGroup S g i ↔
  (group o = g ∧ (i < stepIndex o)%Z) ∧ o ∈ steps S.
Proof.
  unfold stepsToReplayInSameGroup.
  by rewrite elem_of_sort_by, list_elem_of_filter.
Qed.

Lemma resolvedRun_origin todo w rs w' :
  resolvedRun now execute todo w rs w' →
  Forall
    (fun r => ∃ o, o ∈ todo ∧ replayOf r = Some (stepIndex o)
                   ∧ ∃ v r0 v1, execute o v = (Resolved r0, v1)
                                ∧ group r = group r0)
    rs.
Proof.
  induction 1 as [|o rest w r0 w1 t w2 rs w3 He Hn _ IH]; constructor.
  - exists o. split_and!; [apply list_elem_of_here|done|by exists w, r0, w1].
  - eapply Forall_impl; [exact IH|]. simpl.
    intros r (o' & Hin & Hrest). exists o'.
    split; [by apply list_elem_of_further|done].
Qed.

(** C7: the call throws exactly when no step of the session has the
    cut index; it then throws at once: the executor has not been
    called, the clock has not been read, and no other index has been
    tried. *)
Theorem createReplaySession_not_found (S : Session) (i : Z) (e : Env) :
  ((∃ msg, (createReplaySession now S i execute e).1 = Thrown msg)
   ↔ ¬ ∃ s, s ∈ steps S ∧ stepIndex s = i)
  ∧ (∀ msg, (createReplaySession now S i execute e).1 = Thrown msg →
       createReplaySession now S i execute e
       = (Thrown ("Step " +:+ pretty i +:+ " not found in original session"),
          e)).
Proof.
  destruct (findStep i (steps S)) as [fromStep|] eqn:Hf.
  - destruct (replayLoop now execute
                (stepsToReplayInSameGroup S (group fromStep) i) [] e)
      as [rs e1] eqn:Hl.
    destruct (createReplaySession_returns S i fromStep e rs e1 Hf Hl)
      as (sess & w' & -> & _).
    apply findStep_Some in Hf as [Hin Hi]. simpl.
    split; [|done]. split; [by intros [msg ?]|].
    intros Hno. exfalso. apply Hno. by exists fromStep.
  - unfold createReplaySession. rewrite Hf. unfold ret. simpl.
    split; [|done]. split; [|by eexists].
    intros _ (s & Hin & Hi). apply findStep_None in Hf. apply Hf.
    subst i. apply list_elem_of_fmap. by exists s.
Qed.

(** C3: when the executor resolves on the first steps of the tail and
    rejects the next one, the loop stops there and the session is
    returned, with its replay metadata.  Its steps are the steps of the
    original whose group is at most the cut step's, followed by one
    replayed step for each step on which the executor resolved, in
    order, each marked as the replay of that step.  The executor was
    called on those steps and on the rejected one, and on no step after
    it.  Nothing is appended for the rejected step or for the steps
    after it; the steps themselves, being of the cut step's group, are
    in the returned session, among the copied steps. *)
Theorem createReplaySession_partial_failure
    (S : Session) (i : Z) (fromStep : Step) (e : Env)
    (done : list Step) (failing : Step) (rest : list Step)
    (rs : list Step) (w1 : World) (reason : string) (w2 : World) :
  findStep i (steps S) = Some fromStep →
  stepsToReplayInSameGroup S (group fromStep) i = done ++ failing :: rest →
  resolvedRun now execute done (world e) rs w1 →
  execute failing w1 = (Rejected reason, w2) →
  ∃ sess e',
    createReplaySession now S i execute e = (Returned sess, e')
    ∧ steps sess
      = filter (fun step => (group step ≤ group fromStep)%Z) (steps S) ++ rs
    ∧ Forall2 (fun o r => replayOf r = Some (stepIndex o)) done rs
    ∧ length rs = length done
    ∧ calls e' = calls e ++ done ++ [failing]
    ∧ (∀ o, o ∈ failing :: rest →
            o ∈ filter (fun step => (group step ≤ group fromStep)%Z) (steps S)
            ∧ o ∈ steps sess)
    ∧ sessionReplayOf sess = Some (sessionId S)
    ∧ replayFromStepIndex sess = Some i
    ∧ isReplaySession sess = Some true.
Proof.
  intros Hf Htodo Hrun Hrej.
  pose proof (replayLoop_rejected _ _ _ _ _ _ _ rest Hrun Hrej) as Hl.
  rewrite <- Htodo in Hl.
  destruct (createReplaySession_returns S i fromStep e _ _ Hf Hl)
    as (sess & w' & Hc & Hsteps & Hmeta).
  unfold unchangedStepsOf in Hsteps. rewrite map_spread_id in Hsteps.
  exists sess, (mkEnv w' (calls e ++ done ++ [failing])).
  split_and!; try done; try apply Hmeta.
  - eapply Forall2_impl; [exact (resolvedRun_tags _ _ _ _ Hrun)|].
    by intros o r [Hrep _].
  - by eapply resolvedRun_length.
  - intros o Ho.
    assert (o ∈ stepsToReplayInSameGroup S (group fromStep) i) as Hin.
    { rewrite Htodo. apply elem_of_app. by right. }
    apply elem_of_stepsToReplay in Hin as [[Hg _] Hin].
    assert (o ∈ filter (fun step => (group step ≤ group fromStep)%Z)
                  (steps S)) as Hpre.
    { apply list_elem_of_filter. split; [lia|done]. }
    split; [done|]. rewrite Hsteps. apply elem_of_app. by left.
Qed.

(** C5: with an executor that never rejects, the steps replayed are
    the steps of the cut step's group with an index above the cut
    index, each once, in ascending order of index; the executor is
    called on them in that order, each call starting from the world
    left by the one before; each step it gives is tagged with the
    index of the step it replays and with the time read after the
    call, and is placed after the copied prefix. *)
Theorem createReplaySession_replays_tail
    (S : Session) (i : Z) (fromStep : Step) (e : Env) :
  findStep i (steps S) = Some fromStep →
  alwaysResolves execute →
  let todo := stepsToReplayInSameGroup S (group fromStep) i in
  todo ≡ₚ filter (fun step => group step = group fromStep
                              ∧ (i < stepIndex step)%Z) (steps S)
  ∧ StronglySorted (key_le stepIndex) todo
  ∧ ∃ sess e' rs w1,
      createReplaySession now S i execute e = (Returned sess, e')
      ∧ steps sess = unchangedStepsOf S (group fromStep) ++ rs
      ∧ resolvedRun now execute todo (world e) rs w1
      ∧ calls e' = calls e ++ todo
      ∧ Forall2
          (fun o r => replayOf r = Some (stepIndex o)
                      ∧ ∃ v r0 v1, execute o v = (Resolved r0, v1)
                                   ∧ timestamp r = (now v1).1
                                   ∧ group r = group r0 ∧ data r = data r0
                                   ∧ stepIndex r = stepIndex r0)
          todo rs.
Proof.
  intros Hf Hres todo. split_and!.
  - apply sort_by_Permutation.
  - apply sort_by_sorted.
  - destruct e as [w cs].
    destruct (replayLoop_spec todo [] w cs)
      as (done & rest & rs & w1 & e1 & Htodo & Hrun & Hl & Hend).
    destruct Hend as [[-> ->]|(f & rest' & reason & w2 & _ & Hrej & _)].
    + rewrite app_nil_r in Htodo. subst done.
      destruct (createReplaySession_returns S i fromStep _ _ _ Hf Hl)
        as (sess & w' & Hc & Hsteps & _).
      exists sess, (mkEnv w' (cs ++ todo)), rs, w1.
      split_and!; try done. by eapply resolvedRun_tags.
    + destruct (Hres f w1) as (r & w' & Hok). congruence.
Qed.

(** C2, as the code has it: once the cut step is found, the session
    returned consists of the steps of the original whose group is at
    most the cut step's group, unchanged and in their order, followed
    by the replayed steps, which are what the executor gave for the
    first steps of the tail, each tagged with the index of a step of
    the cut step's group above the cut index.  No step has a greater
    group than the cut step's, provided the executor gives back steps
    of the group of its input. *)
Theorem createReplaySession_prefix
    (S : Session) (i : Z) (fromStep : Step) (e : Env) :
  findStep i (steps S) = Some fromStep →
  ∃ sess e' rs done rest w1,
    createReplaySession now S i execute e = (Returned sess, e')
    ∧ steps sess
      = filter (fun step => (group step ≤ group fromStep)%Z) (steps S) ++ rs
    ∧ stepsToReplayInSameGroup S (group fromStep) i = done ++ rest
    ∧ resolvedRun now execute done (world e) rs w1
    ∧ Forall
        (fun r => ∃ o, o ∈ steps S ∧ group o = group fromStep
                       ∧ (i < stepIndex o)%Z
                       ∧ replayOf r = Some (stepIndex o))
        rs
    ∧ (preservesGroup execute →
       ∀ step, step ∈ steps sess → (group step ≤ group fromStep)%Z).
Proof.
  intros Hf. destruct e as [w cs].
  destruct (replayLoop_spec
              (stepsToReplayInSameGroup S (group fromStep) i) [] w cs)
    as (done & rest & rs & w1 & e1 & Htodo & Hrun & Hl & _).
  destruct (createReplaySession_returns S i fromStep _ _ _ Hf Hl)
    as (sess & w' & Hc & Hsteps & _).
  unfold unchangedStepsOf in Hsteps. rewrite map_spread_id in Hsteps.
  pose proof (resolvedRun_origin _ _ _ _ Hrun) as Horigin.
  assert (∀ o, o ∈ done →
               (group o = group fromStep ∧ (i < stepIndex o)%Z)
               ∧ o ∈ steps S) as Hdone.
  { intros o Ho. apply elem_of_stepsToReplay. rewrite Htodo.
    apply elem_of_app. by left. }
  exists sess, (mkEnv w' (calls e1)), rs, done, rest, w1.
  split_and!; [done|done|done|done| |].
  - eapply Forall_impl; [exact Horigin|]. simpl.
    intros r (o & Ho & Hrep & _). exists o.
    destruct (Hdone o Ho) as [[? ?] ?]. done.
  - intros Hpres step Hstep. rewrite Hsteps in Hstep.
    apply elem_of_app in Hstep as [Hstep|Hstep].
    + by apply list_elem_of_filter in Hstep as [? _].
    + eapply Forall_forall in Horigin; [|exact Hstep].
      destruct Horigin as (o & Ho & _ & v & r0 & v1 & He & Hg).
      destruct (Hdone o Ho) as [[Hgo _] _].
      rewrite Hg, (Hpres _ _ _ _ He), Hgo. lia.
Qed.

(** C8, as the code has it: when the executor rejects a step of the
    tail, the rejection is caught inside the loop and goes no further:
    the call does not throw, it returns a session, and the rejected
    step is the last one the executor was called on. *)
Theorem createReplaySession_catches_rejection
    (S : Session) (i : Z) (fromStep : Step) (e : Env)
    (done : list Step) (failing : Step) (rest : list Step)
    (rs : list Step) (w1 : World) (reason : string) (w2 : World) :
  findStep i (steps S) = Some fromStep →
  stepsToReplayInSameGroup S (group fromStep) i = done ++ failing :: rest →
  resolvedRun now execute done (world e) rs w1 →
  execute failing w1 = (Rejected reason, w2) →
  (∀ msg, (createReplaySession now S i execute e).1 ≠ Thrown msg)
  ∧ (∃ sess, (createReplaySession now S i execute e).1 = Returned sess)
  ∧ last (calls (createReplaySession now S i execute e).2) = Some failing.
Proof.
  intros Hf Htodo Hrun Hrej.
  pose proof (replayLoop_rejected _ _ _ _ _ _ _ rest Hrun Hrej) as Hl.
  rewrite <- Htodo in Hl.
  destruct (createReplaySession_returns S i fromStep e _ _ Hf Hl)
    as (sess & w' & -> & _).
  simpl. split_and!; [done|by exists sess|].
  by rewrite !app_assoc, last_snoc.
Qed.
End BranchProperties.

(** *** The branch constructor on the sample session *)

Lemma createReplaySession_not_found_witness :
  createReplaySession demoClock demoSession 7 echoExecutor (mkEnv 0%nat [])
  = (Thrown "Step 7 not found in original session", mkEnv 0%nat []).
Proof.
  exact (proj2 (createReplaySession_not_found demoClock echoExecutor
                  demoSession 7 (mkEnv 0%nat [])) _ eq_refl).
Defined.

Lemma createReplaySession_partial_failure_witness :
  findStep 1 (steps tailSession) = Some (plainStep 1 1 (PromptData "build it" None))
  ∧ stepsToReplayInSameGroup tailSession 1 1
    = [tailStep2] ++ tailStep3 :: [tailStep4]
  ∧ resolvedRun demoClock (failAt 3) [tailStep2] 0%nat
      [tagReplay tailStep2 2 "2025-06-01T10:00:01.000Z"] 2%nat
  ∧ failAt 3 tailStep3 2%nat = (Rejected "rejected", 3%nat)
  ∧ ∃ sess e',
      createReplaySession demoClock tailSession 1 (failAt 3) (mkEnv 0%nat [])
      = (Returned sess, e')
      ∧ calls e' = [] ++ [tailStep2] ++ [tailStep3]
      ∧ steps sess
        = filter (fun step => (group step ≤ 1)%Z) (steps tailSession)
          ++ [tagReplay tailStep2 2 "2025-06-01T10:00:01.000Z"].
Proof.
  split_and!; [reflexivity|reflexivity| |reflexivity|].
  { eapply run_cons; [reflexivity|reflexivity|apply run_nil]. }
  destruct (createReplaySession_partial_failure demoClock (failAt 3)
              tailSession 1 (plainStep 1 1 (PromptData "build it" None))
              (mkEnv 0%nat []) [tailStep2] tailStep3 [tailStep4]
              [tagReplay tailStep2 2 "2025-06-01T10:00:01.000Z"]
              2%nat "rejected" 3%nat)
    as (sess & e' & Hc & Hsteps & _ & _ & Hcalls & _).
  - reflexivity.
  - reflexivity.
  - eapply run_cons; [reflexivity|reflexivity|apply run_nil].
  - reflexivity.
  - by exists sess, e'.
Defined.

(** C3, the claim as stated fails: the rejected step and the steps after
    it are not left out of the returned session.  Branching the second
    sample session at index 1 with an executor that rejects the step of
    index 3, the tail being the steps 2, 3 and 4, gives the steps 1, 2,
    3 and 4 followed by the replay of step 2: the rejected step 3 and
    the later step 4 are its third and fourth step. *)
Lemma createReplaySession_failing_step_kept :
  ∃ sess,
    stepsToReplayInSameGroup tailSession 1 1
    = [tailStep2] ++ tailStep3 :: [tailStep4]
    ∧ failAt 3 tailStep3 2%nat = (Rejected "rejected", 3%nat)
    ∧ (createReplaySession demoClock tailSession 1 (failAt 3)
         (mkEnv 0%nat [])).1 = Returned sess
    ∧ map stepIndex (steps sess) = [1; 2; 3; 4; 2]%Z
    ∧ steps sess !! 2%nat = Some tailStep3
    ∧ steps sess !! 3%nat = Some tailStep4
    ∧ ¬ (∀ o, o ∈ tailStep3 :: [tailStep4] → o ∉ steps sess).
Proof.
  eexists. split_and!; try reflexivity.
  intros H. apply (H tailStep3); [apply list_elem_of_here|].
  apply list_elem_of_lookup. by exists 2%nat.
Qed.

Lemma echoExecutor_alwaysResolves : alwaysResolves echoExecutor.
Proof. intros step w. by exists step, (S w). Qed.

Lemma createReplaySession_replays_tail_witness :
  findStep 3 (steps demoSession) = Some demoStep3
  ∧ alwaysResolves echoExecutor
  ∧ ∃ sess e' rs w1,
      createReplaySession demoClock demoSession 3 echoExecutor
        (mkEnv 0%nat [])
      = (Returned sess, e')
      ∧ steps sess = unchangedStepsOf demoSession (group demoStep3) ++ rs
      ∧ resolvedRun demoClock echoExecutor
          (stepsToReplayInSameGroup demoSession (group demoStep3) 3)
          0%nat rs w1
      ∧ calls e'
        = [] ++ stepsToReplayInSameGroup demoSession (group demoStep3) 3.
Proof.
  split_and!; [reflexivity|apply echoExecutor_alwaysResolves|].
  destruct (createReplaySession_replays_tail demoClock echoExecutor
              demoSession 3 demoStep3 (mkEnv 0%nat []) eq_refl
              echoExecutor_alwaysResolves)
    as (_ & _ & sess & e' & rs & w1 & Hc & Hs & Hr & Hcalls & _).
  by exists sess, e', rs, w1.
Defined.

(** C2, the claim as stated fails: with an executor that moves the steps
    it is given to group 9, branching the sample session at index 3, of
    group 2, gives a session whose sixth step is of group 9. *)
Lemma createReplaySession_group_exceeds :
  ∃ fromStep sess step,
    findStep 3 (steps demoSession) = Some fromStep
    ∧ (createReplaySession demoClock demoSession 3 (regroup 9)
         (mkEnv 0%nat [])).1 = Returned sess
    ∧ steps sess !! 5%nat = Some step
    ∧ group fromStep = 2%Z ∧ group step = 9%Z
    ∧ ¬ (∀ s, s ∈ steps sess → (group s ≤ group fromStep)%Z).
Proof.
  eexists _, _, _. split_and!; try reflexivity.
  intros H.
  specialize (H (mkStep 4 "2025-06-01T10:00:01.000Z" 9 None None (Some 4%Z)
                   (CommandData "npm test" "3 passing" "" 0))).
  simpl in H. assert (9 ≤ 2)%Z; [|lia].
  apply H. apply list_elem_of_lookup. by exists 5%nat.
Qed.

Lemma createReplaySession_prefix_witness :
  findStep 3 (steps demoSession) = Some demoStep3
  ∧ ∃ sess e' rs,
      createReplaySession demoClock demoSession 3 (regroup 9) (mkEnv 0%nat [])
      = (Returned sess, e')
      ∧ steps sess
        = filter (fun step => (group step ≤ group demoStep3)%Z)
            (steps demoSession) ++ rs.
Proof.
  split; [reflexivity|].
  destruct (createReplaySession_prefix demoClock (regroup 9) demoSession 3
              demoStep3 (mkEnv 0%nat []) eq_refl)
    as (sess & e' & rs & done & rest & w1 & Hc & Hs & _).
  by exists sess, e', rs.
Defined.

(** C8, the claim as stated fails: the executor rejects step 4 of the
    sample session, and the call returns a session instead of throwing. *)
Lemma createReplaySession_rejection_not_propagated :
  failAt 4 demoStep4 0%nat = (Rejected "rejected", 1%nat)
  ∧ (∃ sess,
       (createReplaySession demoClock demoSession 3 (failAt 4)
          (mkEnv 0%nat [])).1 = Returned sess)
  ∧ ∀ msg,
      (createReplaySession demoClock demoSession 3 (failAt 4)
         (mkEnv 0%nat [])).1 ≠ Thrown msg.
Proof. split_and!; [reflexivity|by eexists|done]. Qed.

Lemma createReplaySession_catches_rejection_witness :
  findStep 3 (steps demoSession) = Some demoStep3
  ∧ stepsToReplayInSameGroup demoSession (group demoStep3) 3
    = [] ++ demoStep4 :: [demoStep5]
  ∧ failAt 4 demoStep4 0%nat = (Rejected "rejected", 1%nat)
  ∧ last (calls (createReplaySession demoClock demoSession 3 (failAt 4)
                   (mkEnv 0%nat [])).2) = Some demoStep4.
Proof.
  split_and!; [reflexivity|reflexivity|reflexivity|].
  apply (createReplaySession_catches_rejection demoClock (failAt 4)
           demoSession 3 demoStep3 (mkEnv 0%nat []) [] demoStep4 [demoStep5]
           [] 0%nat "rejected" 1%nat).
  - reflexivity.
  - reflexivity.
  - apply run_nil.
  - reflexivity.
Defined.

(** ** Properties of the spread copy in the store *)

Lemma mapSpread_spec (arr : list loc) :
  ∀ σ : Store,
    (∀ l, l ∈ arr → is_Some (stepObjects σ !! l)) →
    dataObjects (mapSpread σ arr).2 = dataObjects σ
    ∧ stepObjects σ ⊆ stepObjects (mapSpread σ arr).2
    ∧ Forall2
        (fun l l' =>
           (l' ∉ dom (stepObjects σ))
           ∧ ∀ o, stepObjects σ !! l = Some o →
                  stepObjects (mapSpread σ arr).2 !! l' = Some o)
        arr (mapSpread σ arr).1.
Proof.
  induction arr as [|l rest IH]; intros σ Hall; simpl.
  - split_and!; [done|done|constructor].
  - destruct (Hall l) as [o Ho]; [apply list_elem_of_here|].
    rewrite Ho. unfold allocStep.
    set (l' := fresh (dom (stepObjects σ))).
    set (σ1 := mkStore (<[l':=spread o]> (stepObjects σ)) (dataObjects σ)).
    assert (stepObjects σ !! l' = None) as Hfresh.
    { apply not_elem_of_dom, is_fresh. }
    assert (stepObjects σ ⊆ stepObjects σ1) as Hsub.
    { by apply insert_subseteq. }
    destruct (IH σ1) as (Hd & Hs & Hf).
    { intros k Hk. destruct (Hall k) as [ok Hok];
        [by apply list_elem_of_further|].
      exists ok. by eapply lookup_weaken. }
    destruct (mapSpread σ1 rest) as [arr' σ2] eqn:E. simpl in *.
    split_and!; [done|by etrans|].
    constructor.
    + split; [by apply not_elem_of_dom|].
      intros o' Ho'. assert (o' = o) as -> by congruence.
      eapply lookup_weaken; [|exact Hs].
      simpl. by rewrite lookup_insert_eq, spread_id.
    + eapply Forall2_impl; [exact Hf|]. simpl.
      intros k k' [Hk' Hcopy]. split.
      * intros Hin. apply Hk'.
        apply elem_of_dom in Hin as [x Hx].
        apply elem_of_dom. exists x. by eapply lookup_weaken.
      * intros ok Hok. apply Hcopy. by eapply lookup_weaken.
Qed.

Lemma groupAtMost_is_Some (σ : Store) (g : Z) (l : loc) :
  groupAtMost σ g l = true → is_Some (stepObjects σ !! l).
Proof. unfold groupAtMost. destruct (stepObjects σ !! l); [eauto|done]. Qed.

Lemma readStep_mutatePayload_alias (σ : Store) (l l' : loc)
    (o : StepOf loc) (f : StepData → StepData) :
  stepObjects σ !! l = Some o → stepObjects σ !! l' = Some o →
  readStep (mutatePayload σ l' f) l = withData f <$> readStep σ l.
Proof.
  intros Hl Hl'. unfold mutatePayload, readStep. rewrite Hl'. simpl.
  rewrite Hl, lookup_alter_eq.
  by destruct (dataObjects σ !! data o).
Qed.

Lemma readStep_setTimestamp_other (σ : Store) (l l' : loc) (t : string) :
  l ≠ l' → readStep (setTimestamp σ l' t) l = readStep σ l.
Proof.
  intros Hne. unfold setTimestamp, readStep. simpl.
  by rewrite lookup_alter_ne.
Qed.

Lemma readStep_weaken (σ σ' : Store) (l : loc) (o : StepOf loc) :
  stepObjects σ !! l = Some o → stepObjects σ ⊆ stepObjects σ' →
  dataObjects σ' = dataObjects σ → readStep σ' l = readStep σ l.
Proof.
  intros Hl Hsub Hd. unfold readStep.
  by rewrite Hl, (lookup_weaken _ _ _ _ Hl Hsub), Hd.
Qed.

(** The copy in the store is the copy of [createReplaySession]: reading
    the new array gives the value-level [unchangedSteps] of the steps
    read from the old one. *)
Lemma readStep_groupAtMost (σ : Store) (g : Z) (l : loc) (step : Step) :
  readStep σ l = Some step →
  groupAtMost σ g l = bool_decide (group step ≤ g)%Z.
Proof.
  unfold readStep, groupAtMost.
  destruct (stepObjects σ !! l) as [o|]; [|done].
  destruct (dataObjects σ !! data o); [|done].
  by intros [= <-].
Qed.

Lemma copyUnchanged_reads (σ : Store) (arr : list loc) (g : Z)
    (ss : list Step) :
  Forall2 (fun l step => readStep σ l = Some step) arr ss →
  Forall2 (fun l' step => readStep (copyUnchanged σ arr g).2 l' = Some step)
    (copyUnchanged σ arr g).1
    (map spread (filter (fun step => (group step ≤ g)%Z) ss)).
Proof.
  intros Hread. rewrite map_spread_id. unfold copyUnchanged.
  set (kept := List.filter (groupAtMost σ g) arr).
  assert (Forall2 (fun l step => readStep σ l = Some step) kept
            (filter (fun step => (group step ≤ g)%Z) ss)) as Hkept.
  { subst kept. induction Hread as [|l step arr ss Hl _ IH]; [constructor|].
    simpl. rewrite filter_cons, (readStep_groupAtMost _ _ _ _ Hl).
    case_bool_decide; case_decide; try done. by constructor. }
  assert (∀ l, l ∈ kept → is_Some (stepObjects σ !! l)) as Hall.
  { intros l Hl. apply list_elem_of_In, filter_In in Hl as [_ Hl].
    by eapply groupAtMost_is_Some. }
  destruct (mapSpread_spec kept σ Hall) as (Hd & Hs & Hf).
  apply Forall2_same_length_lookup. split.
  { rewrite <- (Forall2_length _ _ _ Hf). by eapply Forall2_length. }
  intros n l' step Hl' Hstep.
  destruct (Forall2_lookup_r _ _ _ _ _ Hf Hl') as (l & Hl & _ & Hcopy).
  pose proof (Forall2_lookup_lr _ _ _ _ _ _ Hkept Hl Hstep) as Hr.
  destruct (Hall l) as [o Ho]; [by eapply list_elem_of_lookup_2|].
  rewrite <- Hr. unfold readStep. by rewrite Ho, (Hcopy o Ho), Hd.
Qed.

(** C9, as the code has it: the copy of the prefix allocates a new step
    object for each step it keeps, holding the property values of the
    original, among them the reference to the same data object; it
    allocates no data object and leaves the original step objects as
    they were.  So assigning to a property of a copied step leaves the
    original step as it was, while a change made to the payload through
    a copied step is seen through the original step. *)
Theorem copyUnchanged_shallow (σ : Store) (arr : list loc) (g : Z) :
  let kept := List.filter (groupAtMost σ g) arr in
  let arr' := (copyUnchanged σ arr g).1 in
  let σ' := (copyUnchanged σ arr g).2 in
  dataObjects σ' = dataObjects σ
  ∧ stepObjects σ ⊆ stepObjects σ'
  ∧ Forall2
      (fun l l' =>
         (l' ∉ dom (stepObjects σ))
         ∧ (∃ o, stepObjects σ !! l = Some o ∧ stepObjects σ' !! l' = Some o)
         ∧ readStep σ' l' = readStep σ l
         ∧ readStep σ' l = readStep σ l
         ∧ (∀ t, readStep (setTimestamp σ' l' t) l = readStep σ l)
         ∧ (∀ f, readStep (mutatePayload σ' l' f) l
                 = withData f <$> readStep σ l))
      kept arr'.
Proof.
  intros kept arr' σ'. subst arr' σ'. unfold copyUnchanged. fold kept.
  assert (∀ l, l ∈ kept → is_Some (stepObjects σ !! l)) as Hall.
  { intros l Hl. apply list_elem_of_In, filter_In in Hl as [_ Hl].
    by eapply groupAtMost_is_Some. }
  destruct (mapSpread_spec kept σ Hall) as (Hd & Hs & Hf).
  split_and!; [done|done|].
  apply Forall2_same_length_lookup. split; [by eapply Forall2_length|].
  intros n l l' Hnl Hnl'.
  destruct (Forall2_lookup_lr _ _ _ _ _ _ Hf Hnl Hnl') as [Hfresh Hcopy].
  destruct (Hall l) as [o Ho]; [by eapply list_elem_of_lookup_2|].
  pose proof (Hcopy o Ho) as Ho'.
  pose proof (lookup_weaken _ _ _ _ Ho Hs) as Ho2.
  assert (l ≠ l') as Hne.
  { intros ->. apply Hfresh. by eapply elem_of_dom_2. }
  assert (readStep (mapSpread σ kept).2 l = readStep σ l) as Hread.
  { by eapply readStep_weaken. }
  split_and!; [done|by exists o| |done| |].
  - unfold readStep. by rewrite Ho, Ho', Hd.
  - intros t. by rewrite readStep_setTimestamp_other.
  - intros f. by rewrite (readStep_mutatePayload_alias _ _ _ o), Hread.
Qed.

(** C9, the claim as stated fails: in the sample store the step at
    address 1 is copied to a new address; changing the payload through
    the copy changes what is read through the original. *)
Lemma copyUnchanged_payload_shared :
  let arr' := (copyUnchanged demoStore [1%positive] 1).1 in
  let σ' := (copyUnchanged demoStore [1%positive] 1).2 in
  let σ'' := mutatePayload σ' 2%positive (fun _ => PromptData "changed" None) in
  arr' = [2%positive]
  ∧ data <$> readStep σ' 1%positive = Some (PromptData "hello" None)
  ∧ data <$> readStep σ'' 1%positive = Some (PromptData "changed" None)
  ∧ readSteps σ'' [1%positive] ≠ readSteps σ' [1%positive].
Proof. split_and!; [reflexivity|reflexivity|reflexivity|]. vm_compute. congruence. Qed.

(** ** Properties of the line-level diff *)

Lemma append_String (c : ascii) (a b : string) :
  String c a +:+ b = String c (a +:+ b).
Proof. reflexivity. Qed.

Lemma append_nil_l (a : string) : "" +:+ a = a.
Proof. reflexivity. Qed.

Lemma append_assoc (a b c : string) : (a +:+ b) +:+ c = a +:+ (b +:+ c).
Proof.
  induction a as [|x a IH]; [done|]. by rewrite !append_String, IH.
Qed.

Lemma append_nil_r (a : string) : a +:+ "" = a.
Proof. induction a as [|x a IH]; [done|]. by rewrite append_String, IH. Qed.

(** The lines of a text, put together, are the text. *)
Lemma joinLines_splitLines (s : string) : joinLines (splitLines s) = s.
Proof.
  induction s as [|c s IH]; simpl; [done|].
  case_bool_decide.
  - simpl. by rewrite append_String, append_nil_l, IH.
  - destruct (splitLines s) as [|line lines]; simpl in *.
    + by rewrite append_String, <- IH.
    + by rewrite append_String, IH.
Qed.

Lemma alignLines_nil_r (old : list string) :
  alignLines old [] = map (pair Removed) old.
Proof. by destruct old. Qed.

Lemma alignLines_cons (x y : string) (old new : list string) :
  alignLines (x :: old) (y :: new)
  = if bool_decide (x = y) then (Unchanged, x) :: alignLines old new
    else if bool_decide
              (commonLines ((Added, y) :: alignLines (x :: old) new)
               ≤ commonLines ((Removed, x) :: alignLines old (y :: new)))%nat
         then (Removed, x) :: alignLines old (y :: new)
         else (Added, y) :: alignLines (x :: old) new.
Proof. reflexivity. Qed.

Lemma linesOf_cons (kinds : list Kind) (k : Kind) (x : string)
    (script : list (Kind * string)) :
  linesOf kinds ((k, x) :: script)
  = if bool_decide (k ∈ kinds) then x :: linesOf kinds script
    else linesOf kinds script.
Proof.
  unfold linesOf. rewrite filter_cons. simpl.
  by case_decide; case_bool_decide.
Qed.

Lemma linesOf_map_pair (k : Kind) (kinds : list Kind) (l : list string) :
  linesOf kinds (map (pair k) l) = if bool_decide (k ∈ kinds) then l else [].
Proof.
  induction l as [|x l IH]; simpl; [by case_bool_decide|].
  rewrite linesOf_cons, IH. by case_bool_decide.
Qed.

Ltac kind_cases :=
  repeat case_bool_decide; try done;
  repeat match goal with
    | H : _ ∈ _ |- _ => apply list_elem_of_In in H; simpl in H
    | H : _ ∉ _ |- _ => rewrite list_elem_of_In in H; simpl in H
    end;
  try (exfalso; intuition congruence).

(** The lines kept or removed are the old lines; the lines kept or
    added are the new ones. *)
Lemma alignLines_sound (old : list string) :
  ∀ new,
    linesOf [Unchanged; Removed] (alignLines old new) = old
    ∧ linesOf [Unchanged; Added] (alignLines old new) = new.
Proof.
  induction old as [|x old IHold]; intros new.
  - simpl. rewrite !linesOf_map_pair. by kind_cases.
  - induction new as [|y new IHnew].
    + rewrite alignLines_nil_r, !linesOf_map_pair. by kind_cases.
    + rewrite alignLines_cons.
      destruct (IHold new) as [H1 H2].
      destruct (IHold (y :: new)) as [H3 H4].
      destruct IHnew as [H5 H6].
      case_bool_decide as Hxy; [|case_bool_decide].
      * subst y. rewrite !linesOf_cons, H1, H2. by kind_cases.
      * rewrite !linesOf_cons, H3, H4. by kind_cases.
      * rewrite !linesOf_cons, H5, H6. by kind_cases.
Qed.

Lemma textOf_cons (kinds : list Kind) (seg : Segment) (segs : list Segment) :
  textOf kinds (seg :: segs)
  = if bool_decide (kind seg ∈ kinds) then text seg +:+ textOf kinds segs
    else textOf kinds segs.
Proof. reflexivity. Qed.

(** Grouping the lines into runs keeps the text of each kind. *)
Lemma textOf_groupRuns (kinds : list Kind) (script : list (Kind * string)) :
  textOf kinds (groupRuns script) = joinLines (linesOf kinds script).
Proof.
  induction script as [|[k line] rest IH]; [done|].
  rewrite linesOf_cons. simpl groupRuns.
  destruct (groupRuns rest) as [|seg segs].
  - rewrite textOf_cons. simpl kind. simpl text.
    case_bool_decide; [|done].
    change (joinLines (line :: linesOf kinds rest))
      with (line +:+ joinLines (linesOf kinds rest)).
    by rewrite <- IH.
  - rewrite textOf_cons in IH.
    destruct (decide (kind seg = k)) as [Hk|Hk].
    + rewrite (bool_decide_eq_true_2 _ Hk). subst k.
      rewrite textOf_cons. simpl kind. simpl text.
      case_bool_decide; [|done].
      change (joinLines (line :: linesOf kinds rest))
        with (line +:+ joinLines (linesOf kinds rest)).
      by rewrite append_assoc, IH.
    + rewrite (bool_decide_eq_false_2 _ Hk).
      rewrite textOf_cons. simpl kind. simpl text.
      rewrite textOf_cons, IH.
      by destruct (bool_decide (k ∈ kinds)).
Qed.

(** Every segment has the kind of some line of the script. *)
Lemma groupRuns_kind (script : list (Kind * string)) (seg : Segment) :
  seg ∈ groupRuns script → kind seg ∈ map fst script.
Proof.
  revert seg. induction script as [|[k line] rest IH]; intros seg; simpl.
  - by intros ?%elem_of_nil.
  - destruct (groupRuns rest) as [|seg' segs].
    + intros ->%list_elem_of_singleton. apply list_elem_of_here.
    + case_bool_decide as Hk.
      * intros [->|Hin]%elem_of_cons; [apply list_elem_of_here|].
        apply list_elem_of_further, IH. by apply list_elem_of_further.
      * intros [->|Hin]%elem_of_cons; [apply list_elem_of_here|].
        by apply list_elem_of_further, IH.
Qed.

Lemma groupRuns_uniform (k : Kind) (lines : list string) :
  Forall (fun seg => kind seg = k) (groupRuns (map (pair k) lines)).
Proof.
  apply Forall_forall. intros seg Hseg.
  apply groupRuns_kind in Hseg.
  apply list_elem_of_fmap in Hseg as ([k' x] & -> & Hin).
  by apply list_elem_of_fmap in Hin as (y & [= -> _] & _).
Qed.

Lemma alignLines_same (lines : list string) :
  alignLines lines lines = map (pair Unchanged) lines.
Proof.
  induction lines as [|x lines IH]; [done|].
  rewrite alignLines_cons, bool_decide_eq_true_2 by done.
  simpl. by rewrite IH.
Qed.

(** C6: [diffLines] is a total function; for any two texts it gives a
    script whose unchanged and removed segments spell the old text and
    whose unchanged and added segments spell the new text, in order; a
    text against itself gives only unchanged segments, which spell it;
    the empty text against a text gives only added segments, which
    spell that text. *)
Theorem diffLines_reconstructs (oldText newText : string) :
  textOf [Unchanged; Removed] (diffLines oldText newText) = oldText
  ∧ textOf [Unchanged; Added] (diffLines oldText newText) = newText
  ∧ Forall (fun seg => kind seg = Unchanged) (diffLines oldText oldText)
  ∧ textOf [Unchanged] (diffLines oldText oldText) = oldText
  ∧ Forall (fun seg => kind seg = Added) (diffLines "" newText)
  ∧ textOf [Added] (diffLines "" newText) = newText.
Proof.
  unfold diffLines.
  destruct (alignLines_sound (splitLines oldText) (splitLines newText))
    as [Hold Hnew].
  split_and!.
  - by rewrite textOf_groupRuns, Hold, joinLines_splitLines.
  - by rewrite textOf_groupRuns, Hnew, joinLines_splitLines.
  - rewrite alignLines_same. apply groupRuns_uniform.
  - rewrite textOf_groupRuns, alignLines_same, linesOf_map_pair.
    rewrite bool_decide_eq_true_2 by apply list_elem_of_here.
    apply joinLines_splitLines.
  - apply groupRuns_uniform.
  - rewrite textOf_groupRuns. simpl alignLines.
    rewrite linesOf_map_pair.
    rewrite bool_decide_eq_true_2 by apply list_elem_of_here.
    apply joinLines_splitLines.
Qed.

(** Two texts that differ in their second line and in their end. *)
Example diffLines_sample :
  let nl := String newline "" in
  diffLines ("a" +:+ nl +:+ "b" +:+ nl +:+ "c" +:+ nl)
    ("a" +:+ nl +:+ "x" +:+ nl +:+ "c" +:+ nl +:+ "d" +:+ nl)
  = [mkSegment Unchanged ("a" +:+ nl);
     mkSegment Removed ("b" +:+ nl);
     mkSegment Added ("x" +:+ nl);
     mkSegment Unchanged ("c" +:+ nl);
     mkSegment Added ("d" +:+ nl)].
Proof. reflexivity. Qed.

(** ** Replayed steps in the returned session *)

Lemma findStep_app (j : Z) (l1 l2 : list Step) :
  findStep j (l1 ++ l2)
  = match findStep j l1 with
    | Some s => Some s
    | None => findStep j l2
    end.
Proof.
  unfold findStep. induction l1 as [|x l1 IH]; simpl; [done|].
  by case_bool_decide.
Qed.

Lemma findStep_filter_Some (P : Step → Prop) `{∀ s, Decision (P s)}
    (j : Z) (l : list Step) (o : Step) :
  findStep j l = Some o → P o → findStep j (filter P l) = Some o.
Proof.
  unfold findStep. induction l as [|x l IH]; simpl; [done|].
  rewrite filter_cons. case_bool_decide as Hx.
  - intros [= ->] Ho. rewrite decide_True by done. simpl.
    by rewrite bool_decide_eq_true_2.
  - intros Hf Ho. case_decide; [|by apply IH]. simpl.
    rewrite bool_decide_eq_false_2 by done. by apply IH.
Qed.

Lemma compareSteps_same (o : Step) : compareSteps o o = [].
Proof.
  unfold compareSteps. rewrite bool_decide_eq_false_2 by (intros H; done).
  destruct (data o); unfold changed;
    rewrite ?bool_decide_eq_false_2 by (intros H; done); done.
Qed.

Section ReplayedSteps.
Context {World : Type} (now : World → string * World).
Context (execute : @Executor World).

(** What a returned session is made of. *)
Lemma createReplaySession_Returned_inv S i fromStep e sess e' :
  findStep i (steps S) = Some fromStep →
  createReplaySession now S i execute e = (Returned sess, e') →
  ∃ (done rest rs : list Step) w1,
    stepsToReplayInSameGroup S (group fromStep) i = done ++ rest
    ∧ resolvedRun now execute done (world e) rs w1
    ∧ steps sess
      = filter (fun step => (group step ≤ group fromStep)%Z) (steps S) ++ rs
    ∧ sessionTitle sess = "Replay of " +:+ sessionTitle S
    ∧ sessionReplayOf sess = Some (sessionId S)
    ∧ replayFromStepIndex sess = Some i
    ∧ isReplaySession sess = Some true.
Proof.
  intros Hf Hc. destruct e as [w cs].
  destruct (replayLoop_spec now execute
              (stepsToReplayInSameGroup S (group fromStep) i) [] w cs)
    as (done & rest & rs & w1 & e1 & Htodo & Hrun & Hl & _).
  destruct (now (world e1)) as [t w2] eqn:Ht.
  destruct (now w2) as [created w3] eqn:Hcr.
  rewrite (createReplaySession_found now execute S i fromStep _ _ _ _ _ _ _
             Hf Hl Ht Hcr) in Hc.
  injection Hc as <- <-.
  exists done, rest, rs, w1. simpl.
  unfold unchangedStepsOf. rewrite map_spread_id. done.
Qed.

(** The steps replayed stem from steps that the copied prefix holds. *)
Lemma resolvedRun_in_prefix S i g done rest w rs w1 :
  stepsToReplayInSameGroup S g i = done ++ rest →
  resolvedRun now execute done w rs w1 →
  Forall
    (fun r => ∃ o r0 v v1,
       o ∈ filter (fun step => (group step ≤ g)%Z) (steps S)
       ∧ (i < stepIndex o)%Z
       ∧ execute o v = (Resolved r0, v1)
       ∧ replayOf r = Some (stepIndex o)
       ∧ stepIndex r = stepIndex r0 ∧ group r = group r0
       ∧ data r = data r0)
    rs.
Proof.
  intros Htodo Hrun.
  assert (∀ o, o ∈ done →
               (group o = g ∧ (i < stepIndex o)%Z) ∧ o ∈ steps S) as Hdone.
  { intros o Ho. apply (elem_of_stepsToReplay S g i o). rewrite Htodo.
    apply elem_of_app. by left. }
  clear Htodo. induction Hrun as [|o done w r0 w1 t w2 rs w3 He Hn _ IH].
  - constructor.
  - constructor.
    + destruct (Hdone o) as [[Hg Hi] Hin]; [apply list_elem_of_here|].
      exists o, r0, w, w1. split_and!; try done.
      apply list_elem_of_filter. split; [lia|done].
    + apply IH. intros o' Ho'. apply Hdone. by apply list_elem_of_further.
Qed.

(** The copied prefix comes first in every lookup by index. *)
Lemma createReplaySession_lookup_aux
    (S : Session) (i : Z) (fromStep : Step) (e : Env)
    (sess : Session) (e' : Env) (j : Z) :
  findStep i (steps S) = Some fromStep →
  preservesIndex execute →
  createReplaySession now S i execute e = (Returned sess, e') →
  findStep j (steps sess)
  = findStep j (filter (fun step => (group step ≤ group fromStep)%Z) (steps S)).
Proof.
  intros Hf Hidx Hc.
  destruct (createReplaySession_Returned_inv S i fromStep e sess e' Hf Hc)
    as (done & rest & rs & w1 & Htodo & Hrun & -> & _).
  rewrite findStep_app.
  destruct (findStep j (filter _ (steps S))) as [s|] eqn:Hp; [done|].
  destruct (findStep j rs) as [r|] eqn:Hr; [|done].
  exfalso. apply findStep_Some in Hr as [Hin Hj].
  pose proof (resolvedRun_in_prefix S i _ _ _ _ _ _ Htodo Hrun) as Hpre.
  eapply Forall_forall in Hpre; [|exact Hin].
  destruct Hpre as (o & r0 & v & v1 & Ho & _ & He & _ & Hi0 & _).
  apply findStep_None in Hp. apply Hp.
  apply list_elem_of_fmap. exists o. split; [|done].
  rewrite <- Hj, Hi0. by apply (Hidx _ _ _ _ He).
Qed.

(** X1: looking a step up by its index in a session returned by the
    branch constructor never gives a replayed step, when the executor
    keeps the index of the step it is given: the unchanged copy of the
    original comes first. *)
Theorem createReplaySession_lookup_shadowed
    (S : Session) (i : Z) (fromStep : Step) (e : Env)
    (sess : Session) (e' : Env) (j : Z) :
  findStep i (steps S) = Some fromStep →
  preservesIndex execute →
  createReplaySession now S i execute e = (Returned sess, e') →
  findStep j (steps sess)
  = findStep j (filter (fun step => (group step ≤ group fromStep)%Z) (steps S)).
Proof.
  intros Hf Hidx Hc. rewrite (createReplaySession_lookup_aux S i fromStep e sess e' j Hf Hidx Hc).
  done.
Qed.
End ReplayedSteps.

Lemma countStatus_none (st : Status) (l : list StepComparison) :
  (∀ c, c ∈ l → status c ≠ st) → countStatus st l = 0%nat.
Proof.
  unfold countStatus. induction l as [|c l IH]; intros Hall; [done|].
  rewrite filter_cons, decide_False.
  - apply IH. intros c' Hc'. apply Hall. by apply list_elem_of_further.
  - apply Hall. apply list_elem_of_here.
Qed.

Section BranchCallers.
Context {World : Type} (now : World → string * World).
Context (execute : @Executor World).

(** The entries of the comparison of a session with a branch of it. *)
Lemma compareSessions_branch_entries
    (S : Session) (i : Z) (fromStep : Step) (e : Env)
    (sess : Session) (e' : Env) (c : StepComparison) :
  findStep i (steps S) = Some fromStep →
  indexDeterminesGroup S →
  preservesIndex execute →
  createReplaySession now S i execute e = (Returned sess, e') →
  c ∈ stepComparisons (compareSessions S sess) →
  ∃ o, originalStep c = Some o
       ∧ ((group o ≤ group fromStep)%Z →
          status c = identical ∧ replayStep c = Some o
          ∧ differences c = [])
       ∧ ((group fromStep < group o)%Z →
          status c = removed ∧ replayStep c = None).
Proof.
  intros Hf Hdet Hidx Hc Hin.
  assert (∀ j, findStep j (steps sess)
               = findStep j (filter (fun step => (group step ≤ group fromStep)%Z)
                               (steps S))) as Hlook.
  { intros j. by eapply createReplaySession_lookup_aux. }
  apply elem_of_stepComparisons in Hin as [Hcmp Hin].
  set (j := cmpStepIndex c) in *.
  assert (is_Some (findStep j (steps S))) as [o Ho].
  { destruct Hin as [Hin|Hin]; [by apply findStep_is_Some|].
    apply findStep_is_Some in Hin as [s Hs]. rewrite Hlook in Hs.
    apply findStep_Some in Hs as [Hs Hj].
    apply list_elem_of_filter in Hs as [_ Hs].
    apply findStep_is_Some. apply list_elem_of_fmap. by exists s. }
  exists o. rewrite Hcmp. unfold compareAt. rewrite Ho, Hlook.
  split_and!; [by destruct (findStep j (filter _ (steps S)))| |].
  - intros Hle.
    rewrite (findStep_filter_Some _ j (steps S) o Ho Hle).
    by rewrite compareSteps_same.
  - intros Hgt.
    destruct (findStep j (filter _ (steps S))) as [s|] eqn:Hs; [|done].
    exfalso. apply findStep_Some in Hs as [Hs Hj].
    apply list_elem_of_filter in Hs as [Hle Hs].
    apply findStep_Some in Ho as [Ho Hj'].
    rewrite (Hdet s o Hs Ho) in Hle by congruence. lia.
Qed.

(** Neither [modified] nor [added] occurs in it. *)
Lemma compareSessions_branch_counts
    (S : Session) (i : Z) (fromStep : Step) (e : Env)
    (sess : Session) (e' : Env) (st : Status) :
  findStep i (steps S) = Some fromStep →
  indexDeterminesGroup S →
  preservesIndex execute →
  createReplaySession now S i execute e = (Returned sess, e') →
  st = modified ∨ st = added →
  countStatus st (stepComparisons (compareSessions S sess)) = 0%nat.
Proof.
  intros Hf Hdet Hidx Hc Hst. apply countStatus_none. intros c Hin.
  destruct (compareSessions_branch_entries S i fromStep e sess e' c
              Hf Hdet Hidx Hc Hin) as (o & _ & Hle & Hgt).
  destruct (decide (group o ≤ group fromStep)%Z) as [H|H].
  - destruct (Hle H) as (-> & _). by destruct Hst as [->| ->].
  - destruct Hgt as (-> & _); [lia|]. by destruct Hst as [->| ->].
Qed.

(** X2: comparing a session with a branch made from it, with an
    executor that keeps indices and a session where an index determines
    the group: every entry has an original step; it is [identical], with
    the unchanged copy as replay step, when the original's group is at
    most the cut step's group, and [removed] otherwise.  No entry is
    [modified] or [added]: the replayed steps are never compared. *)
Theorem compareSessions_with_branch
    (S : Session) (i : Z) (fromStep : Step) (e : Env)
    (sess : Session) (e' : Env) :
  findStep i (steps S) = Some fromStep →
  indexDeterminesGroup S →
  preservesIndex execute →
  createReplaySession now S i execute e = (Returned sess, e') →
  (∀ c, c ∈ stepComparisons (compareSessions S sess) →
     ∃ o, originalStep c = Some o
          ∧ ((group o ≤ group fromStep)%Z →
             status c = identical ∧ replayStep c = Some o
             ∧ differences c = [])
          ∧ ((group fromStep < group o)%Z →
             status c = removed ∧ replayStep c = None))
  ∧ modifiedSteps (summary (compareSessions S sess)) = 0%nat
  ∧ addedSteps (summary (compareSessions S sess)) = 0%nat.
Proof.
  intros Hf Hdet Hidx Hc. split_and!.
  - intros c Hin. by eapply compareSessions_branch_entries.
  - apply (compareSessions_branch_counts S i fromStep e sess e' modified);
      auto.
  - apply (compareSessions_branch_counts S i fromStep e sess e' added);
      auto.
Qed.

(** X3: in a session returned by the branch constructor every replayed
    step is marked as a replay in the step header, its original is among
    the copied steps and lists it among its replayed versions; the step
    list shows the replay tag on it when the cut index is not negative. *)
Theorem createReplaySession_replay_marks
    (S : Session) (i : Z) (fromStep : Step) (e : Env)
    (sess : Session) (e' : Env) :
  findStep i (steps S) = Some fromStep →
  createReplaySession now S i execute e = (Returned sess, e') →
  ∃ rs,
    steps sess
    = filter (fun step => (group step ≤ group fromStep)%Z) (steps S) ++ rs
    ∧ Forall
        (fun r =>
           isReplayedStep r = true
           ∧ ((0 ≤ i)%Z → showsReplayTag r = true)
           ∧ ∃ o, o ∈ filter (fun step => (group step ≤ group fromStep)%Z)
                        (steps S)
                  ∧ replayOf r = Some (stepIndex o)
                  ∧ hasReplayedVersions (steps sess) o = true
                  ∧ r ∈ replayedVersions (steps sess) o)
        rs.
Proof.
  intros Hf Hc.
  destruct (createReplaySession_Returned_inv now execute S i fromStep e sess e'
              Hf Hc)
    as (done & rest & rs & w1 & Htodo & Hrun & Hsteps & _).
  exists rs. split; [done|].
  pose proof (resolvedRun_in_prefix now execute S i _ _ _ _ _ _ Htodo Hrun)
    as Hpre.
  apply Forall_forall. intros r Hr.
  pose proof (proj1 (Forall_forall _ _) Hpre r Hr)
    as (o & r0 & v & v1 & Ho & Hi & _ & Hrep & _).
  assert (r ∈ steps sess) as Hrs.
  { rewrite Hsteps. apply elem_of_app. by right. }
  split_and!.
  - unfold isReplayedStep. rewrite Hrep. by apply bool_decide_eq_true_2.
  - intros Hi0. unfold showsReplayTag. rewrite Hrep.
    apply bool_decide_eq_true_2. lia.
  - exists o. split_and!; [done|done| |].
    + unfold hasReplayedVersions. apply existsb_exists. exists r.
      split; [by apply list_elem_of_In|by apply bool_decide_eq_true_2].
    + unfold replayedVersions. by apply list_elem_of_filter.
Qed.
End BranchCallers.

(** *** The callers on the sample session *)

Lemma echoExecutor_preservesIndex : preservesIndex echoExecutor.
Proof. intros step w r w' [= <- _]. done. Qed.

Lemma NoDup_indices_determines_group (S : Session) :
  NoDup (indices S) → indexDeterminesGroup S.
Proof.
  unfold indices. intros Hnd s s' Hs Hs' Hi.
  apply list_elem_of_lookup in Hs as [n Hn].
  apply list_elem_of_lookup in Hs' as [n' Hn'].
  assert (n = n') as ->; [|congruence].
  eapply NoDup_lookup; [exact Hnd| |].
  - by rewrite list_lookup_fmap, Hn.
  - rewrite list_lookup_fmap, Hn'. simpl. by rewrite Hi.
Qed.

Lemma demoSession_indexDeterminesGroup : indexDeterminesGroup demoSession.
Proof.
  apply NoDup_indices_determines_group.
  apply (bool_decide_unpack (NoDup (indices demoSession))). by vm_compute.
Qed.

Lemma createReplaySession_lookup_shadowed_witness :
  findStep 3 (steps demoSession) = Some demoStep3
  ∧ preservesIndex echoExecutor
  ∧ ∃ sess e',
      createReplaySession demoClock demoSession 3 echoExecutor
        (mkEnv 0%nat []) = (Returned sess, e')
      ∧ findStep 4 (steps sess)
        = findStep 4 (filter (fun step => (group step ≤ group demoStep3)%Z)
                        (steps demoSession)).
Proof.
  split_and!; [reflexivity|apply echoExecutor_preservesIndex|].
  destruct (createReplaySession demoClock demoSession 3 echoExecutor
              (mkEnv 0%nat [])) as [[sess|msg] e'] eqn:E;
    [|by vm_compute in E].
  exists sess, e'. split; [done|].
  apply (createReplaySession_lookup_shadowed demoClock echoExecutor
           demoSession 3 demoStep3 (mkEnv 0%nat []) sess e' 4 eq_refl
           echoExecutor_preservesIndex E).
Defined.

Lemma compareSessions_with_branch_witness :
  findStep 3 (steps demoSession) = Some demoStep3
  ∧ indexDeterminesGroup demoSession
  ∧ preservesIndex echoExecutor
  ∧ ∃ sess e',
      createReplaySession demoClock demoSession 3 echoExecutor
        (mkEnv 0%nat []) = (Returned sess, e')
      ∧ modifiedSteps (summary (compareSessions demoSession sess)) = 0%nat
      ∧ addedSteps (summary (compareSessions demoSession sess)) = 0%nat.
Proof.
  split_and!; [reflexivity|apply demoSession_indexDeterminesGroup
              |apply echoExecutor_preservesIndex|].
  destruct (createReplaySession demoClock demoSession 3 echoExecutor
              (mkEnv 0%nat [])) as [[sess|msg] e'] eqn:E;
    [|by vm_compute in E].
  exists sess, e'. split; [done|].
  apply (compareSessions_with_branch demoClock echoExecutor
           demoSession 3 demoStep3 (mkEnv 0%nat []) sess e' eq_refl
           demoSession_indexDeterminesGroup
           echoExecutor_preservesIndex E).
Defined.

Lemma createReplaySession_replay_marks_witness :
  findStep 3 (steps demoSession) = Some demoStep3
  ∧ ∃ sess e' rs,
      createReplaySession demoClock demoSession 3 echoExecutor
        (mkEnv 0%nat []) = (Returned sess, e')
      ∧ steps sess
        = filter (fun step => (group step ≤ group demoStep3)%Z)
            (steps demoSession) ++ rs
      ∧ Forall (fun r => isReplayedStep r = true) rs.
Proof.
  split; [reflexivity|].
  destruct (createReplaySession demoClock demoSession 3 echoExecutor
              (mkEnv 0%nat [])) as [[sess|msg] e'] eqn:E;
    [|by vm_compute in E].
  destruct (createReplaySession_replay_marks demoClock echoExecutor
              demoSession 3 demoStep3 (mkEnv 0%nat []) sess e' eq_refl E)
    as (rs & Hs & Hall).
  exists sess, e', rs. split_and!; [done|exact Hs|].
  eapply Forall_impl; [exact Hall|]. by intros r [? _].
Defined.

(** ** Properties of the step list *)

Lemma groupStep_lookup (acc : gmap Z (list Step)) (step : Step) (g : Z) :
  groupStep acc step !! g
  = if decide (group step = g)
    then Some (default [] (acc !! g) ++ [step])
    else acc !! g.
Proof.
  unfold groupStep. case_decide as Hg.
  - subst g. rewrite lookup_alter_eq.
    destruct (acc !! group step) as [l|] eqn:E; simpl.
    + by rewrite E.
    + by rewrite lookup_insert_eq.
  - rewrite lookup_alter_ne by done.
    destruct (acc !! group step); [done|]. by rewrite lookup_insert_ne.
Qed.

Lemma foldl_groupStep_lookup (steps : list Step) :
  ∀ (acc : gmap Z (list Step)) (g : Z),
    foldl groupStep acc steps !! g
    = match acc !! g, filter (fun s => group s = g) steps with
      | None, [] => None
      | o, l => Some (default [] o ++ l)
      end.
Proof.
  induction steps as [|s steps IH]; intros acc g.
  - simpl. destruct (acc !! g); simpl; [by rewrite app_nil_r|done].
  - simpl foldl. rewrite IH, groupStep_lookup, filter_cons.
    case_decide as Hg; [|done].
    unfold Step in *.
    destruct (acc !! g); simpl;
      destruct (filter _ steps); simpl;
      rewrite ?app_nil_r, <- ?app_assoc; done.
Qed.

Lemma groupedSteps_lookup (steps : list Step) (g : Z) :
  groupedSteps steps !! g
  = match filter (fun s => group s = g) steps with
    | [] => None
    | l => Some l
    end.
Proof.
  unfold groupedSteps. rewrite foldl_groupStep_lookup, lookup_empty.
  by destruct (filter _ steps).
Qed.

Lemma elem_of_group_keys (steps : list Step) (g : Z) :
  g ∈ map fst (map_to_list (groupedSteps steps)) ↔ g ∈ map group steps.
Proof.
  rewrite list_elem_of_fmap. split.
  - intros ([g' l] & -> & Hin). apply elem_of_map_to_list in Hin. simpl.
    rewrite groupedSteps_lookup in Hin.
    destruct (filter _ steps) as [|s l'] eqn:E; [done|].
    assert (s ∈ filter (fun s => group s = g') steps) as Hs.
    { rewrite E. apply list_elem_of_here. }
    apply list_elem_of_filter in Hs as [<- Hs].
    apply list_elem_of_fmap. by exists s.
  - intros Hin. apply list_elem_of_fmap in Hin as (s & -> & Hs).
    assert (s ∈ filter (fun s' => group s' = group s) steps) as Hf.
    { by apply list_elem_of_filter. }
    destruct (filter (fun s' => group s' = group s) steps) as [|x l] eqn:E.
    { by apply elem_of_nil in Hf. }
    exists (group s, x :: l). split; [done|].
    apply elem_of_map_to_list. by rewrite groupedSteps_lookup, E.
Qed.

Lemma sortedGroups_ascending (steps : list Step) :
  StronglySorted Z.lt (sortedGroups steps).
Proof.
  apply sorted_NoDup_lt; [apply sort_by_sorted|].
  unfold sortedGroups. rewrite sort_by_Permutation.
  apply NoDup_fst_map_to_list.
Qed.

Lemma elem_of_sortedGroups (steps : list Step) (g : Z) :
  g ∈ sortedGroups steps ↔ g ∈ map group steps.
Proof.
  unfold sortedGroups. by rewrite elem_of_sort_by, elem_of_group_keys.
Qed.

(** Buckets taken for distinct groups that cover the steps hold each
    step once. *)
Lemma buckets_cons (s : Step) (steps : list Step) (gs : list Z) :
  NoDup gs →
  concat (map (fun g => filter (fun s' => group s' = g) (s :: steps)) gs)
  ≡ₚ (if decide (group s ∈ gs) then [s] else [])
     ++ concat (map (fun g => filter (fun s' => group s' = g) steps) gs).
Proof.
  induction gs as [|g gs IHg]; intros Hnd.
  - rewrite decide_False by (apply not_elem_of_nil). done.
  - apply NoDup_cons in Hnd as [Hg Hnd].
    cbn [map concat]. rewrite (IHg Hnd), filter_cons.
    destruct (decide (group s = g)) as [Heq|Hne].
    + rewrite (decide_True (P := group s ∈ g :: gs))
        by (rewrite Heq; apply list_elem_of_here).
      rewrite (decide_False (P := group s ∈ gs)) by (by rewrite Heq).
      done.
    + destruct (decide (group s ∈ gs)) as [Hin|Hnin].
      * rewrite (decide_True (P := group s ∈ g :: gs))
          by (by apply list_elem_of_further).
        cbn [app]. by rewrite Permutation_middle.
      * rewrite (decide_False (P := group s ∈ g :: gs)); [done|].
        intros [?|?]%elem_of_cons; done.
Qed.

Lemma buckets_Permutation (steps : list Step) (gs : list Z) :
  NoDup gs → (∀ s, s ∈ steps → group s ∈ gs) →
  concat (map (fun g => filter (fun s => group s = g) steps) gs) ≡ₚ steps.
Proof.
  intros Hnd. induction steps as [|s steps IH]; intros Hcover.
  - clear. induction gs as [|g gs IHg]; [done|]. cbn [map concat].
    by rewrite IHg.
  - rewrite (buckets_cons s steps gs Hnd).
    rewrite decide_True by (apply Hcover, list_elem_of_here).
    cbn [app]. constructor. apply IH. intros s' Hs'.
    by apply Hcover, list_elem_of_further.
Qed.

Lemma stepsByGroup_buckets (steps : list Step) :
  stepsByGroup steps
  = concat (map (fun g => filter (fun s => group s = g) steps)
              (sortedGroups steps)).
Proof.
  unfold stepsByGroup. f_equal. apply map_ext_in. intros g Hg.
  rewrite groupedSteps_lookup. by destruct (filter _ steps).
Qed.

(** X4: the grouping of the step list: under each group number that
    occurs the object holds the steps of that group, in session order,
    and it holds no other key; the sorted keys are the group numbers
    that occur, each once, ascending. *)
Theorem groupedSteps_correct (steps : list Step) :
  (∀ g, g ∈ map group steps →
        groupedSteps steps !! g
        = Some (filter (fun s => group s = g) steps))
  ∧ (∀ g, g ∉ map group steps → groupedSteps steps !! g = None)
  ∧ StronglySorted Z.lt (sortedGroups steps)
  ∧ (∀ g, g ∈ sortedGroups steps ↔ g ∈ map group steps).
Proof.
  split_and!.
  - intros g Hg. rewrite groupedSteps_lookup.
    apply list_elem_of_fmap in Hg as (s & -> & Hs).
    assert (s ∈ filter (fun s' => group s' = group s) steps) as Hf.
    { by apply list_elem_of_filter. }
    destruct (filter _ steps); [by apply elem_of_nil in Hf|done].
  - intros g Hg. rewrite groupedSteps_lookup.
    destruct (filter (fun s => group s = g) steps) as [|s l] eqn:E; [done|].
    exfalso. apply Hg.
    assert (s ∈ filter (fun s => group s = g) steps) as Hs.
    { rewrite E. apply list_elem_of_here. }
    apply list_elem_of_filter in Hs as [<- Hs].
    apply list_elem_of_fmap. by exists s.
  - apply sortedGroups_ascending.
  - apply elem_of_sortedGroups.
Qed.

(** X5: the step list, group after group in ascending order of group
    number, shows every step of the session exactly once. *)
Theorem stepsByGroup_Permutation (steps : list Step) :
  stepsByGroup steps ≡ₚ steps.
Proof.
  rewrite stepsByGroup_buckets. apply buckets_Permutation.
  - unfold sortedGroups. rewrite sort_by_Permutation.
    apply NoDup_fst_map_to_list.
  - intros s Hs. apply elem_of_sortedGroups.
    apply list_elem_of_fmap. by exists s.
Qed.

(** X6: the four per-type counts of the step list's summary add up to
    its total. *)
Theorem summaryStats_total (steps : list Step) :
  (statPrompts (summaryStats steps) + statFiles (summaryStats steps)
   + statCommands (summaryStats steps) + statResponses (summaryStats steps)
   = statTotal (summaryStats steps))%nat.
Proof.
  simpl. induction steps as [|s steps IH]; [done|].
  rewrite !filter_cons. simpl.
  destruct (type s); repeat case_decide; try done; simpl; lia.
Qed.

Lemma concat_map_nil {A B} (F : A → list B) (l : list A) :
  (∀ x, x ∈ l → F x = []) → concat (map F l) = [].
Proof.
  induction l as [|x l IH]; intros Hall; [done|]. cbn [map concat].
  rewrite (Hall x) by apply list_elem_of_here.
  apply IH. intros y Hy. by apply Hall, list_elem_of_further.
Qed.

Lemma filter_nil_iff {A} (P : A → Prop) `{∀ x, Decision (P x)} (l : list A) :
  (∀ x, x ∈ l → ¬ P x) → filter P l = [].
Proof.
  induction l as [|x l IH]; intros Hall; [done|].
  rewrite filter_cons, decide_False by (apply Hall, list_elem_of_here).
  apply IH. intros y Hy. by apply Hall, list_elem_of_further.
Qed.

(** Buckets taken in ascending order give back steps that come group
    after group. *)
Lemma buckets_sorted (steps : list Step) (gs : list Z) :
  StronglySorted Z.lt gs → (∀ s, s ∈ steps → group s ∈ gs) →
  StronglySorted (key_le group) steps →
  concat (map (fun g => filter (fun s => group s = g) steps) gs) = steps.
Proof.
  intros Hgs. induction steps as [|s steps IH]; intros Hcover Hsorted.
  - by apply concat_map_nil.
  - apply StronglySorted_inv in Hsorted as [Hsorted Hmin].
    destruct (list_elem_of_split gs (group s)) as (pre & post & ->).
    { apply Hcover, list_elem_of_here. }
    assert (∀ g, g ∈ pre → (g < group s)%Z) as Hpre.
    { intros g Hg.
      eapply (StronglySorted_app_1_elem_of _ _ _ _ _ Hgs Hg).
      apply list_elem_of_here. }
    assert (∀ g, g ∈ post → (group s < g)%Z) as Hpost.
    { intros g Hg. apply StronglySorted_app_1_r in Hgs.
      apply StronglySorted_inv in Hgs as [_ Hx].
      by eapply Forall_forall in Hx. }
    assert (∀ g, g ∈ pre →
              filter (fun s' => group s' = g) (s :: steps) = []) as Hempty.
    { intros g Hg. apply filter_nil_iff. intros x Hx Hxg.
      specialize (Hpre g Hg).
      apply elem_of_cons in Hx as [->|Hx]; [lia|].
      eapply Forall_forall in Hmin; [|exact Hx].
      unfold key_le in Hmin. lia. }
    transitivity
      (s :: concat (map (fun g => filter (fun s' => group s' = g) steps)
                      (pre ++ group s :: post))).
    2:{ f_equal. apply IH; [|done]. intros s' Hs'.
        by apply Hcover, list_elem_of_further. }
    rewrite !map_app, !concat_app. cbn [map concat].
    rewrite (concat_map_nil _ pre Hempty).
    rewrite (concat_map_nil (fun g => filter (fun s' => group s' = g) steps)
               pre).
    2:{ intros g Hg. specialize (Hempty g Hg).
        rewrite filter_cons in Hempty. by case_decide. }
    rewrite filter_cons, decide_True by done. cbn [app]. f_equal. f_equal.
    f_equal. apply map_ext_in. intros g Hg%list_elem_of_In.
    specialize (Hpost g Hg).
    rewrite filter_cons, decide_False by lia. done.
Qed.

(** X7: when the steps of a session come group after group, in
    ascending order of group number, the step list shows them in the
    order of the session. *)
Theorem stepsByGroup_sorted (steps : list Step) :
  StronglySorted (key_le group) steps → stepsByGroup steps = steps.
Proof.
  intros Hsorted. rewrite stepsByGroup_buckets. apply buckets_sorted.
  - apply sortedGroups_ascending.
  - intros s Hs. apply elem_of_sortedGroups.
    apply list_elem_of_fmap. by exists s.
  - done.
Qed.

Lemma stepsByGroup_sorted_witness :
  StronglySorted (key_le group) (steps demoSession)
  ∧ stepsByGroup (steps demoSession) = steps demoSession.
Proof.
  assert (StronglySorted (key_le group) (steps demoSession)) as H.
  { repeat constructor; unfold key_le; simpl; lia. }
  split; [exact H|]. apply (stepsByGroup_sorted (steps demoSession) H).
Defined.

(** ** Properties of the diff viewer *)

Lemma foldl_invariant {A B} (I : A → Prop) (f : A → B → A) (l : list B) :
  ∀ a, I a → (∀ a b, I a → I (f a b)) → I (foldl f a l).
Proof.
  induction l as [|b l IH]; intros a Ha Hstep; [done|].
  simpl. apply IH; [by apply Hstep|done].
Qed.

Section PaneInvariant.
Context (I : Panes → Prop).
Hypothesis I_start : I (mkPanes [] [] 1 1).
Hypothesis I_push : ∀ change p line, I p → I (pushLine change p line).

Lemma buildPanes_invariant (changes : list Change) : I (buildPanes changes).
Proof.
  unfold buildPanes. apply foldl_invariant; [done|].
  intros p change Hp. unfold pushChange.
  apply foldl_invariant; [done|]. intros. by apply I_push.
Qed.
End PaneInvariant.

(** X8: the two panes of the diff viewer face each other row by row:
    a removed line on the left faces a blank on the right, an added
    line on the right faces a blank on the left, an unchanged line
    faces the same text; so the panes have the same number of rows, the
    left pane has no added line and the right pane no removed one. *)
Theorem buildPanes_aligned (changes : list Change) :
  Forall2 rowAligned (leftLines (buildPanes changes))
    (rightLines (buildPanes changes))
  ∧ length (leftLines (buildPanes changes))
    = length (rightLines (buildPanes changes))
  ∧ countType Added (leftLines (buildPanes changes)) = 0%nat
  ∧ countType Removed (rightLines (buildPanes changes)) = 0%nat.
Proof.
  assert (Forall2 rowAligned (leftLines (buildPanes changes))
            (rightLines (buildPanes changes))) as Hrows.
  { apply (buildPanes_invariant
             (fun p => Forall2 rowAligned (leftLines p) (rightLines p)
                       ∧ (1 ≤ leftLineNum p)%nat ∧ (1 ≤ rightLineNum p)%nat)).
    - split_and!; [constructor|done|done].
    - intros change p line (Hrows & Hl & Hr). unfold pushLine.
      destruct (changeAdded change), (changeRemoved change); simpl;
        (split_and!; [|lia|lia]);
        (apply Forall2_app; [done|]);
        (apply Forall2_cons_2; [|apply Forall2_nil_2]);
        unfold rowAligned; simpl.
      + right. left. split_and!; [done|done|lia].
      + right. left. split_and!; [done|done|lia].
      + left. split_and!; [done|lia|done].
      + right. right. split_and!; [done|done|done|lia|lia]. }
  split_and!; [done|by eapply Forall2_length| |].
  - unfold countType. apply length_zero_iff_nil, filter_nil_iff.
    intros l Hl Hadded.
    apply list_elem_of_lookup in Hl as [n Hn].
    destruct (Forall2_lookup_l _ _ _ _ _ Hrows Hn) as (r & _ & Hrow).
    destruct Hrow as [(H & _)|[(-> & _)|(H & _)]];
      [congruence|discriminate Hadded|congruence].
  - unfold countType. apply length_zero_iff_nil, filter_nil_iff.
    intros r Hr Hremoved.
    apply list_elem_of_lookup in Hr as [n Hn].
    destruct (Forall2_lookup_r _ _ _ _ _ Hrows Hn) as (l & _ & Hrow).
    destruct Hrow as [(_ & _ & ->)|[(_ & H & _)|(_ & H & _)]];
      [discriminate Hremoved|congruence|congruence].
Qed.

Lemma numbersOf_snoc (lines : list DiffLine) (x : DiffLine) :
  numbersOf (lines ++ [x])
  = numbersOf lines ++ (if decide (lineNumber x ≠ 0%nat) then [lineNumber x]
                        else []).
Proof.
  unfold numbersOf. by rewrite map_app, filter_app.
Qed.

Lemma seq_snoc (n : nat) : (1 ≤ n)%nat → seq 1 (n - 1) ++ [n] = seq 1 (S n - 1).
Proof.
  intros Hn. destruct n as [|m]; [lia|].
  replace (S (S m) - 1)%nat with (S m) by lia.
  replace (S m - 1)%nat with m by lia.
  by rewrite seq_S.
Qed.

(** X9: in each pane of the diff viewer the lines that carry a number
    are numbered 1, 2, 3, ... in order, without gap or repetition. *)
Theorem buildPanes_numbering (changes : list Change) :
  numbersOf (leftLines (buildPanes changes))
  = seq 1 (length (numbersOf (leftLines (buildPanes changes))))
  ∧ numbersOf (rightLines (buildPanes changes))
    = seq 1 (length (numbersOf (rightLines (buildPanes changes)))).
Proof.
  assert (numbersOf (leftLines (buildPanes changes))
          = seq 1 (leftLineNum (buildPanes changes) - 1)
          ∧ numbersOf (rightLines (buildPanes changes))
            = seq 1 (rightLineNum (buildPanes changes) - 1)) as [Hl Hr].
  { apply (buildPanes_invariant
             (fun p => (numbersOf (leftLines p) = seq 1 (leftLineNum p - 1)
                        ∧ numbersOf (rightLines p)
                          = seq 1 (rightLineNum p - 1))
                       ∧ (1 ≤ leftLineNum p)%nat ∧ (1 ≤ rightLineNum p)%nat)).
    - done.
    - intros change p line ((Hl & Hr) & Hln & Hrn). unfold pushLine.
      destruct (changeAdded change), (changeRemoved change); simpl;
        rewrite !numbersOf_snoc, Hl, Hr; simpl;
        rewrite ?decide_True by lia; rewrite ?app_nil_r;
        rewrite ?seq_snoc by lia; (split_and!; [done|done|lia|lia]). }
  rewrite Hl at 2. rewrite Hr at 2. by rewrite !length_seq.
Qed.

Lemma splitNewline_not_nil (s : string) : splitNewline s ≠ [].
Proof.
  destruct s as [|c s]; simpl; [done|].
  case_bool_decide; [done|]. by destruct (splitNewline s).
Qed.

Lemma splitNewline_empty_piece (s : string) :
  splitNewline s = [EmptyString] → s = EmptyString.
Proof.
  destruct s as [|c s]; simpl; [done|]. case_bool_decide as Hc.
  - intros [= E]. by apply splitNewline_not_nil in E.
  - by destruct (splitNewline s).
Qed.

Lemma lastChar_String (c : ascii) (s : string) :
  s ≠ EmptyString → lastChar (String c s) = lastChar s.
Proof. by destruct s. Qed.

(** The last piece of a text is not empty exactly when the text is not
    empty and does not end with a newline. *)
Lemma splitNewline_last (s : string) :
  ∃ init lastPiece,
    splitNewline s = init ++ [lastPiece]
    ∧ (lastPiece ≠ EmptyString ↔ unterminated s = true).
Proof.
  induction s as [|c s (init & lastPiece & Hs & Hlast)].
  - exists [], EmptyString. split; [done|]. by split.
  - simpl splitNewline. case_bool_decide as Hc.
    + exists (EmptyString :: init), lastPiece. rewrite Hs. split; [done|].
      rewrite Hlast. unfold unterminated.
      destruct s as [|c' s'];
        [|by rewrite (lastChar_String c (String c' s'))].
      simpl. subst c. rewrite bool_decide_eq_false_2 by (intros H; done).
      done.
    + rewrite Hs. destruct init as [|piece init]; simpl.
      * exists [], (String c lastPiece). split; [done|].
        split; [|done]. intros _. unfold unterminated.
        destruct s as [|c' s'].
        -- simpl. by apply bool_decide_eq_true_2.
        -- rewrite (lastChar_String c (String c' s')) by done. apply Hlast.
           intros ->.
           by apply (splitNewline_empty_piece (String c' s')) in Hs.
      * exists (String c piece :: init), lastPiece. split; [done|].
        rewrite Hlast. unfold unterminated.
        destruct s as [|c' s'];
        [|by rewrite (lastChar_String c (String c' s'))].
        simpl in Hs. by destruct init.
Qed.

Lemma filter_all {A} (P : A → Prop) `{∀ x, Decision (P x)} (l : list A) :
  (∀ x, x ∈ l → P x) → filter P l = l.
Proof.
  induction l as [|x l IH]; intros Hall; [done|].
  rewrite filter_cons, decide_True by (apply Hall, list_elem_of_here).
  f_equal. apply IH. intros y Hy. by apply Hall, list_elem_of_further.
Qed.

Lemma map_snd_imap_pair {A} (l : list A) : map snd (imap pair l) = l.
Proof.
  apply list_eq. intros i.
  rewrite list_lookup_fmap, list_lookup_imap. by destruct (l !! i).
Qed.

(** The filter of the viewer drops the last piece when it is empty and
    nothing else. *)
Lemma dropLastEmpty_snoc (init : list string) (x : string) :
  dropLastEmpty (init ++ [x])
  = init ++ (if decide (x ≠ EmptyString) then [x] else []).
Proof.
  unfold dropLastEmpty. rewrite imap_app, filter_app, map_app.
  rewrite length_app. simpl length.
  replace (length init + 1 - 1)%nat with (length init) by lia.
  f_equal.
  - rewrite filter_all; [apply map_snd_imap_pair|].
    intros [i l] Hin. left. simpl.
    apply list_elem_of_lookup in Hin as [n Hn].
    rewrite list_lookup_imap in Hn.
    destruct (init !! n) as [y|] eqn:E; [|done].
    injection Hn as <- <-. by eapply lookup_lt_Some.
  - simpl. rewrite filter_cons. simpl.
    destruct (decide (x ≠ EmptyString)) as [Hx|Hx].
    + rewrite decide_True by (by right). done.
    + rewrite decide_False; [done|]. intros [?|?]; [lia|done].
Qed.

Lemma length_visible_lines (v : string) :
  length (dropLastEmpty (splitNewline v))
  = (length (splitNewline v) - 1 + (if unterminated v then 1 else 0))%nat.
Proof.
  destruct (splitNewline_last v) as (init & lastPiece & -> & Hlast).
  rewrite dropLastEmpty_snoc, !length_app. simpl length.
  destruct (decide (lastPiece ≠ EmptyString)) as [Hx|Hx].
  - rewrite (proj1 Hlast Hx). simpl. lia.
  - destruct (unterminated v); [by destruct Hx; apply Hlast|]. simpl. lia.
Qed.

Lemma countType_snoc (k : Kind) (lines : list DiffLine) (x : DiffLine) :
  countType k (lines ++ [x])
  = (countType k lines + (if decide (lineType x = k) then 1 else 0))%nat.
Proof.
  unfold countType. rewrite filter_app, length_app. f_equal.
  rewrite filter_cons. by case_decide.
Qed.

Lemma pushChange_counts (p : Panes) (change : Change) :
  countType Added (rightLines (pushChange p change))
  = (countType Added (rightLines p)
     + (if changeAdded change
        then length (dropLastEmpty (splitNewline (changeValue change)))
        else 0))%nat
  ∧ countType Removed (leftLines (pushChange p change))
    = (countType Removed (leftLines p)
       + (if changeAdded change then 0
          else if changeRemoved change
               then length (dropLastEmpty (splitNewline (changeValue change)))
               else 0))%nat.
Proof.
  unfold pushChange.
  generalize (dropLastEmpty (splitNewline (changeValue change))) as lines.
  intros lines. revert p. induction lines as [|line lines IH]; intros p.
  - simpl. destruct (changeAdded change), (changeRemoved change); lia.
  - simpl foldl. destruct (IH (pushLine change p line)) as [-> ->].
    unfold pushLine.
    destruct (changeAdded change), (changeRemoved change); simpl;
      rewrite !countType_snoc; simpl; lia.
Qed.

Lemma panes_and_stats (changes : list Change) :
  ∀ (p : Panes) (st : DiffStats),
    (countType Added (rightLines (foldl pushChange p changes)) + additions st
     = countType Added (rightLines p)
       + additions (foldl countChange st changes) + openAdded changes)%nat
    ∧ (countType Removed (leftLines (foldl pushChange p changes))
       + deletions st
       = countType Removed (leftLines p)
         + deletions (foldl countChange st changes)
         + openRemoved changes)%nat.
Proof.
  induction changes as [|c changes IH]; intros p st.
  - unfold openAdded, openRemoved. simpl. lia.
  - simpl foldl.
    destruct (IH (pushChange p c) (countChange st c)) as [Ha Hr].
    destruct (pushChange_counts p c) as [Hpa Hpr].
    rewrite Hpa in Ha. rewrite Hpr in Hr.
    rewrite length_visible_lines in Ha, Hr.
    unfold openAdded, openRemoved. rewrite !filter_cons.
    unfold openAdded, openRemoved in Ha, Hr.
    unfold countChange in *.
    destruct (changeAdded c), (changeRemoved c),
      (unterminated (changeValue c)); simpl in *;
      repeat case_decide; destruct_and?; try done; simpl; try lia;
      exfalso; tauto.
Qed.

(** X10: the counters of the diff viewer against its panes: the right
    pane holds as many added lines as [additions] says, plus one for
    every added change whose text is not empty and does not end with a
    newline; likewise the removed lines of the left pane and
    [deletions].  The counters never exceed what the panes show. *)
Theorem diffStats_against_panes (changes : list Change) :
  countType Added (rightLines (buildPanes changes))
  = (additions (diffStats changes) + openAdded changes)%nat
  ∧ countType Removed (leftLines (buildPanes changes))
    = (deletions (diffStats changes) + openRemoved changes)%nat.
Proof.
  destruct (panes_and_stats changes (mkPanes [] [] 1 1) (mkDiffStats 0 0))
    as [Ha Hr].
  unfold buildPanes, diffStats. simpl in Ha, Hr.
  unfold countType in *. simpl in Ha, Hr. lia.
Qed.

(** ** Properties of the comparison view *)

Lemma elem_of_changed `{EqDecision A} (a b : A) (d d' : string) :
  d ∈ changed a b d' ↔ a ≠ b ∧ d = d'.
Proof.
  unfold changed. case_bool_decide as H.
  - rewrite list_elem_of_singleton. tauto.
  - rewrite elem_of_nil. tauto.
Qed.

(** X11: a row of the comparison table has its Diff button exactly when
    its status is [modified], which is exactly when it lists at least
    one difference and both steps are present. *)
Theorem showsDiffButton_iff (a b : Session) (c : StepComparison) :
  c ∈ stepComparisons (compareSessions a b) →
  (showsDiffButton c = true ↔ status c = modified)
  ∧ (status c = modified ↔
     ∃ o p, originalStep c = Some o ∧ replayStep c = Some p
            ∧ compareSteps o p ≠ [] ∧ differences c = compareSteps o p).
Proof.
  intros Hc. apply elem_of_stepComparisons in Hc as [Hc _].
  rewrite Hc. clear Hc. unfold showsDiffButton, compareAt.
  destruct (findStep (cmpStepIndex c) (steps a)) as [o|],
           (findStep (cmpStepIndex c) (steps b)) as [p|]; simpl.
  - destruct (compareSteps o p) as [|d ds] eqn:E; simpl.
    + split; [done|]. split; [done|].
      intros (o' & p' & [= <-] & [= <-] & Hne & _). by rewrite E in Hne.
    + split.
      * by split.
      * split; [|done]. intros _. exists o, p. by rewrite E.
  - split; [done|]. split; [done|]. by intros (? & ? & _ & [=] & _).
  - split; [done|]. split; [done|]. by intros (? & ? & [=] & _).
  - split; [done|]. split; [done|]. by intros (? & ? & [=] & _).
Qed.

Section CompareViewProperties.
Context (JSON_stringify : StepData → string).

(** X12: for two steps of the same type, prompts, commands or file
    edits, the two texts that the Diff dialog shows differ exactly when
    [compareSteps] reports the change of the field shown (response,
    standard output, file content); the other changes it reports
    (prompt input, command, standard error, exit code, path, action)
    leave the two texts equal. *)
Theorem getStepContent_differs_iff (o p : Step) :
  type o = type p → type o ≠ TAssistantResponse →
  getStepContent JSON_stringify (Some o)
  ≠ getStepContent JSON_stringify (Some p)
  ↔ ∃ d, contentDescription (type o) = Some d ∧ d ∈ compareSteps o p.
Proof.
  unfold compareSteps, type, getStepContent. intros Ht Hna.
  rewrite bool_decide_eq_false_2 by (intros H; done).
  destruct (data o), (data p); simpl in *; try done.
  - split.
    + intros Hne. eexists. split; [done|].
      rewrite elem_of_app, !elem_of_changed. right. done.
    + intros (d & [= <-] & Hin).
      rewrite elem_of_app, !elem_of_changed in Hin.
      destruct Hin as [[_ [=]]|[Hne _]]. done.
  - split.
    + intros Hne. eexists. split; [done|].
      rewrite !elem_of_app, !elem_of_changed. right. right.
      split; [congruence|done].
    + intros (d & [= <-] & Hin).
      rewrite !elem_of_app, !elem_of_changed in Hin.
      destruct Hin as [[_ [=]]|[[_ Hd]|[Hne _]]].
      * by destruct action, action0.
      * congruence.
  - split.
    + intros Hne. eexists. split; [done|].
      rewrite !elem_of_app, !elem_of_changed. right. left.
      split; [congruence|done].
    + intros (d & [= <-] & Hin).
      rewrite !elem_of_app, !elem_of_changed in Hin.
      destruct Hin as [[_ [=]]|[[Hne _]|[[_ [=]]|[_ Hd]]]].
      * congruence.
      * discriminate Hd.
Qed.
End CompareViewProperties.

Lemma showsDiffButton_iff_witness :
  let a := plainSession "a" [plainStep 1 1 (CommandData "make" "ok" "" 0)] in
  let b := plainSession "b" [plainStep 1 1 (CommandData "make" "failed" "" 1)] in
  let c := compareAt a b 1 in
  c ∈ stepComparisons (compareSessions a b)
  ∧ showsDiffButton c = true
  ∧ (showsDiffButton c = true ↔ status c = modified).
Proof.
  intros a b c.
  assert (c ∈ stepComparisons (compareSessions a b)) as Hin.
  { vm_compute. apply list_elem_of_here. }
  split_and!; [exact Hin|reflexivity|].
  apply (showsDiffButton_iff a b c Hin).
Defined.

Lemma getStepContent_differs_iff_witness :
  let o := plainStep 1 1 (CommandData "make" "ok" "" 0) in
  let p := plainStep 1 1 (CommandData "make" "failed" "" 1) in
  type o = type p ∧ type o ≠ TAssistantResponse
  ∧ (getStepContent (fun _ => EmptyString) (Some o)
     ≠ getStepContent (fun _ => EmptyString) (Some p)
     ↔ ∃ d, contentDescription (type o) = Some d ∧ d ∈ compareSteps o p).
Proof.
  intros o p. split_and!; [reflexivity|discriminate|].
  apply (getStepContent_differs_iff (fun _ => EmptyString) o p).
  - reflexivity.
  - discriminate.
Defined.

(** ** Properties of the handlers of [App] *)

Lemma find_app {A} (f : A → bool) (l1 l2 : list A) :
  List.find f (l1 ++ l2)
  = match List.find f l1 with
    | Some x => Some x
    | None => List.find f l2
    end.
Proof. induction l1 as [|x l1 IH]; simpl; [done|]. by destruct (f x). Qed.

Lemma length_append (a b : string) :
  String.length (a +:+ b) = (String.length a + String.length b)%nat.
Proof.
  induction a as [|x a IH]; [done|]. rewrite append_String. simpl.
  by rewrite IH.
Qed.

Section AppHandlers.
Context {World : Type} (now : World → string * World).
Context (execute : @Executor World).

(** Once the cut step is found the constructor returns a session,
    whatever the executor does. *)
Lemma createReplaySession_found_returns S i fromStep e :
  findStep i (steps S) = Some fromStep →
  ∃ sess e', createReplaySession now S i execute e = (Returned sess, e').
Proof.
  intros Hf.
  destruct (replayLoop now execute
              (stepsToReplayInSameGroup S (group fromStep) i) [] e)
    as [rs e1] eqn:Hl.
  destruct (createReplaySession_returns now execute S i fromStep e rs e1
              Hf Hl) as (sess & w' & Hc & _).
  eauto.
Qed.

(** The identifier of a branch is longer than that of its original. *)
Lemma createReplaySession_Returned_id S i fromStep e sess e' :
  findStep i (steps S) = Some fromStep →
  createReplaySession now S i execute e = (Returned sess, e') →
  sessionId sess ≠ sessionId S.
Proof.
  intros Hf Hc.
  destruct (replayLoop now execute
              (stepsToReplayInSameGroup S (group fromStep) i) [] e)
    as [rs e1] eqn:Hl.
  destruct (now (world e1)) as [t w2] eqn:Ht.
  destruct (now w2) as [created w3] eqn:Hcr.
  rewrite (createReplaySession_found now execute S i fromStep _ _ _ _ _ _ _
             Hf Hl Ht Hcr) in Hc.
  injection Hc as <- <-. simpl. intros Heq.
  apply (f_equal String.length) in Heq.
  rewrite !length_append in Heq. simpl in Heq. lia.
Qed.

(** What the handler does when the cut step is in the current session. *)
Lemma handleReplayFromHere_found st S fromStep cut e st' e' :
  currentSession st = Some S →
  findStep (stepIndex fromStep) (steps S) = Some cut →
  handleReplayFromHere now execute st fromStep e = (st', e') →
  ∃ replay,
    createReplaySession now S (stepIndex fromStep) execute e
    = (Returned replay, e')
    ∧ st' = mkAppState (sessions st ++ [summarize replay])
              (allSessions st ++ [replay]) (Some replay)
              (firstStepIndex replay) (view st) (compareData st).
Proof.
  intros Hcur Hf Hh. unfold handleReplayFromHere in Hh. rewrite Hcur in Hh.
  destruct (createReplaySession_found_returns S (stepIndex fromStep) cut e Hf)
    as (replay & e1 & Hc).
  unfold bind in Hh. rewrite Hc in Hh. injection Hh as <- <-.
  by exists replay.
Qed.

(** X13: replaying from a step whose index the current session holds
    always adds a session, also when the executor rejects: one summary
    and one session are appended, the view switches to the new session,
    whose summary counts at least one step, names the current session
    as its original and is listed as a replay.  Its compare button is
    shown unless the identifier of the original is the empty string.
    The step selected afterwards is the first step of the original
    whose group is at most the cut step's, none if its index is 0. *)
Theorem handleReplayFromHere_appends (st : AppState) (S : Session)
    (fromStep cut : Step) (e : Env) :
  currentSession st = Some S →
  findStep (stepIndex fromStep) (steps S) = Some cut →
  ∃ replay e',
    handleReplayFromHere now execute st fromStep e
    = (mkAppState (sessions st ++ [summarize replay])
         (allSessions st ++ [replay]) (Some replay)
         (firstStepIndex replay) (view st) (compareData st), e')
    ∧ createReplaySession now S (stepIndex fromStep) execute e
      = (Returned replay, e')
    ∧ (1 ≤ stepCount (summarize replay))%nat
    ∧ summaryReplayOf (summarize replay) = Some (sessionId S)
    ∧ summaryReplayFromStepIndex (summarize replay)
      = Some (stepIndex fromStep)
    ∧ isReplaySessionSummary (summarize replay) = true
    ∧ (showsCompareButton (summarize replay) = true
       ↔ sessionId S ≠ EmptyString)
    ∧ ∃ first,
        head (filter (fun step => (group step ≤ group cut)%Z) (steps S))
        = Some first
        ∧ firstStepIndex replay
          = if bool_decide (stepIndex first = 0%Z) then None
            else Some (stepIndex first).
Proof.
  intros Hcur Hf.
  destruct (handleReplayFromHere now execute st fromStep e)
    as [st' e'] eqn:Hh.
  destruct (handleReplayFromHere_found st S fromStep cut e st' e'
              Hcur Hf Hh) as (replay & Hc & ->).
  exists replay, e'.
  destruct (createReplaySession_Returned_inv now execute S
              (stepIndex fromStep) cut e replay e' Hf Hc)
    as (done & rest & rs & w1 & _ & _ & Hsteps & _ & Hof & Hfrom & Hflag).
  assert (cut ∈ filter (fun step => (group step ≤ group cut)%Z) (steps S))
    as Hcut.
  { apply list_elem_of_filter. split; [lia|].
    by apply findStep_Some in Hf as [Hin _]. }
  destruct (filter (fun step => (group step ≤ group cut)%Z) (steps S))
    as [|first prefix] eqn:Hpre; [by apply elem_of_nil in Hcut|].
  split_and!; try done.
  - simpl. rewrite Hsteps. simpl. lia.
  - unfold isReplaySessionSummary. simpl. rewrite Hflag.
    by rewrite bool_decide_eq_true_2.
  - unfold showsCompareButton, isReplaySessionSummary. simpl.
    rewrite Hflag, Hof. rewrite bool_decide_eq_true_2 by done. simpl.
    apply bool_decide_eq_true.
  - exists first. split; [done|]. unfold firstStepIndex. by rewrite Hsteps.
Qed.

(** X14: the handler leaves the state of the application and the world
    as they are, and never calls the executor, when no session is open
    or when the open session holds no step with the index of the step
    it is given. *)
Theorem handleReplayFromHere_noop (st : AppState) (fromStep : Step)
    (e : Env) :
  (currentSession st = None
   ∨ ∃ S, currentSession st = Some S ∧ stepIndex fromStep ∉ indices S) →
  handleReplayFromHere now execute st fromStep e = (st, e).
Proof.
  intros [Hcur|(S & Hcur & Hnot)]; unfold handleReplayFromHere;
    rewrite Hcur; [done|].
  apply findStep_None in Hnot. unfold bind, createReplaySession.
  by rewrite Hnot.
Qed.

(** X15: pressing the compare button of the card that a replay has just
    added, when the original is stored under its identifier: the view
    switches to the comparison of the original with the session stored
    under the new identifier, which is the new session unless an older
    one has the same identifier.  With an executor that keeps indices
    and a session where an index determines the group, no row of the
    comparison of the original with the new session has a Diff button,
    and its summary counts no modified and no added step. *)
Theorem handleCompareSession_after_replay (st : AppState) (S : Session)
    (fromStep cut : Step) (e : Env) (st' : AppState) (e' : Env) :
  currentSession st = Some S →
  findSession (sessionId S) (allSessions st) = Some S →
  findStep (stepIndex fromStep) (steps S) = Some cut →
  handleReplayFromHere now execute st fromStep e = (st', e') →
  ∃ replay new,
    currentSession st' = Some replay
    ∧ last (sessions st') = Some new
    ∧ summaryReplayOf new = Some (sessionId S)
    ∧ summaryId new = sessionId replay
    ∧ view (handleCompareSession st' (sessionId S) (summaryId new))
      = ViewCompare
    ∧ compareData (handleCompareSession st' (sessionId S) (summaryId new))
      = Some (S, default replay
                   (findSession (sessionId replay) (allSessions st)))
    ∧ (indexDeterminesGroup S → preservesIndex execute →
       (∀ c, c ∈ stepComparisons (compareSessions S replay) →
             showsDiffButton c = false)
       ∧ modifiedSteps (summary (compareSessions S replay)) = 0%nat
       ∧ addedSteps (summary (compareSessions S replay)) = 0%nat).
Proof.
  intros Hcur Hstored Hf Hh.
  destruct (handleReplayFromHere_found st S fromStep cut e st' e'
              Hcur Hf Hh) as (replay & Hc & ->).
  destruct (createReplaySession_Returned_inv now execute S
              (stepIndex fromStep) cut e replay e' Hf Hc)
    as (_ & _ & _ & _ & _ & _ & _ & _ & Hof & _).
  exists replay, (summarize replay). simpl.
  rewrite last_snoc.
  assert (findSession (sessionId replay) (allSessions st ++ [replay])
          = Some (default replay
                    (findSession (sessionId replay) (allSessions st))))
    as Hnew.
  { unfold findSession. rewrite find_app.
    destruct (List.find _ (allSessions st)); [done|]. simpl.
    by rewrite bool_decide_eq_true_2. }
  assert (findSession (sessionId S) (allSessions st ++ [replay]) = Some S)
    as Hold.
  { unfold findSession in *. rewrite find_app. by rewrite Hstored. }
  unfold handleCompareSession. simpl. rewrite Hold, Hnew. simpl.
  split_and!; try done.
  intros Hdet Hidx. split_and!.
  - intros c Hin.
    destruct (compareSessions_branch_entries now execute S
                (stepIndex fromStep) cut e replay e' c Hf Hdet Hidx Hc Hin)
      as (o & _ & Hle & Hgt).
    unfold showsDiffButton.
    destruct (decide (group o ≤ group cut)%Z) as [H|H].
    + destruct (Hle H) as (-> & _). done.
    + destruct Hgt as (-> & _); [lia|done].
  - apply (compareSessions_branch_counts now execute S (stepIndex fromStep)
             cut e replay e' modified); auto.
  - apply (compareSessions_branch_counts now execute S (stepIndex fromStep)
             cut e replay e' added); auto.
Qed.

(** X16: the session list after such a replay: the new card is counted
    among the replays of the original, once more than before, and the
    title shown for its original is looked up among the cards that were
    there before: the new card is never taken for its own original. *)
Theorem handleReplayFromHere_session_list (st : AppState) (S : Session)
    (fromStep cut : Step) (e : Env) (st' : AppState) (e' : Env) :
  currentSession st = Some S →
  findStep (stepIndex fromStep) (steps S) = Some cut →
  handleReplayFromHere now execute st fromStep e = (st', e') →
  ∃ new,
    sessions st' = sessions st ++ [new]
    ∧ getReplaySessions (sessions st') (sessionId S)
      = getReplaySessions (sessions st) (sessionId S) ++ [new]
    ∧ getOriginalSession (sessions st') new
      = getOriginalSession (sessions st) new
    ∧ summaryId new ≠ sessionId S.
Proof.
  intros Hcur Hf Hh.
  destruct (handleReplayFromHere_found st S fromStep cut e st' e'
              Hcur Hf Hh) as (replay & Hc & ->).
  destruct (createReplaySession_Returned_inv now execute S
              (stepIndex fromStep) cut e replay e' Hf Hc)
    as (_ & _ & _ & _ & _ & _ & _ & _ & Hof & _).
  pose proof (createReplaySession_Returned_id S (stepIndex fromStep) cut e
                replay e' Hf Hc) as Hid.
  exists (summarize replay). simpl. split_and!; try done.
  - unfold getReplaySessions. rewrite filter_app. f_equal.
    rewrite filter_cons, decide_True by done. done.
  - unfold getOriginalSession. rewrite find_app.
    destruct (List.find _ (sessions st)); [done|]. simpl. rewrite Hof.
    rewrite bool_decide_eq_false_2; [done|]. congruence.
Qed.
End AppHandlers.

Lemma handleReplayFromHere_appends_witness :
  let st := mkAppState [] [demoSession] (Some demoSession) None
              ViewWorkflow None in
  ∃ replay e',
    handleReplayFromHere demoClock (failAt 4) st demoStep3 (mkEnv 0%nat [])
    = (mkAppState (sessions st ++ [summarize replay])
         (allSessions st ++ [replay]) (Some replay)
         (firstStepIndex replay) (view st) (compareData st), e')
    ∧ isReplaySessionSummary (summarize replay) = true.
Proof.
  intros st.
  destruct (handleReplayFromHere_appends demoClock (failAt 4) st demoSession
              demoStep3 demoStep3 (mkEnv 0%nat []) eq_refl eq_refl)
    as (replay & e' & Hh & _ & _ & _ & _ & Hr & _).
  by exists replay, e'.
Defined.

Lemma handleReplayFromHere_noop_witness :
  let st := mkAppState [] [demoSession] (Some demoSession) None
              ViewWorkflow None in
  handleReplayFromHere demoClock echoExecutor st
    (plainStep 9 1 (AssistantResponseData "x")) (mkEnv 0%nat [])
  = (st, mkEnv 0%nat []).
Proof.
  intros st.
  apply (handleReplayFromHere_noop demoClock echoExecutor st
           (plainStep 9 1 (AssistantResponseData "x")) (mkEnv 0%nat [])).
  right. exists demoSession. split; [reflexivity|].
  apply (bool_decide_unpack (9%Z ∉ indices demoSession)). by vm_compute.
Defined.

Lemma handleCompareSession_after_replay_witness :
  let st := mkAppState [] [demoSession] (Some demoSession) None
              ViewWorkflow None in
  ∃ st' e',
    handleReplayFromHere demoClock echoExecutor st demoStep3
      (mkEnv 0%nat []) = (st', e')
    ∧ ∃ replay,
        currentSession st' = Some replay
        ∧ view (handleCompareSession st' (sessionId demoSession)
                  (sessionId replay))
          = ViewCompare
        ∧ modifiedSteps (summary (compareSessions demoSession replay))
          = 0%nat.
Proof.
  intros st.
  destruct (handleReplayFromHere demoClock echoExecutor st demoStep3
              (mkEnv 0%nat [])) as [st' e'] eqn:E.
  exists st', e'. split; [done|].
  destruct (handleCompareSession_after_replay demoClock echoExecutor st
              demoSession demoStep3 demoStep3 (mkEnv 0%nat []) st' e'
              eq_refl eq_refl eq_refl E)
    as (replay & new & Hcur & _ & _ & Hid & Hview & _ & Hcmp).
  exists replay. rewrite <- Hid. split_and!; [done|done|].
  apply (Hcmp demoSession_indexDeterminesGroup echoExecutor_preservesIndex).
Defined.

Lemma handleReplayFromHere_session_list_witness :
  let st := mkAppState [] [demoSession] (Some demoSession) None
              ViewWorkflow None in
  ∃ st' e' new,
    handleReplayFromHere demoClock echoExecutor st demoStep3
      (mkEnv 0%nat []) = (st', e')
    ∧ getReplaySessions (sessions st') (sessionId demoSession) = [new].
Proof.
  intros st.
  destruct (handleReplayFromHere demoClock echoExecutor st demoStep3
              (mkEnv 0%nat [])) as [st' e'] eqn:E.
  destruct (handleReplayFromHere_session_list demoClock echoExecutor st
              demoSession demoStep3 demoStep3 (mkEnv 0%nat []) st' e'
              eq_refl eq_refl E) as (new & _ & Hr & _).
  by exists st', e', new.
Defined.

(** ** Properties of the mock executor *)

Lemma withStepData_data (step : Step) : withStepData step (data step) = step.
Proof. by destruct step. Qed.

Lemma demoTexts_drawsBelow : drawsBelow demoTexts.
Proof. intros n w Hn. simpl. apply Nat.mod_upper_bound. lia. Qed.

Section MockExecutorProperties.
Context {World : Type} (T : Texts World).

(** A resolved call gives the step it was given, with a payload of the
    same variant. *)
Lemma mockExecuteStep_Resolved_inv step w r w' :
  mockExecuteStep T step w = (Resolved r, w') →
  ∃ d, r = withStepData step d ∧ data_type d = type step.
Proof.
  unfold mockExecuteStep, type, mockExecutePromptStep,
    mockExecuteCommandStep, mockExecuteFileEditStep, applyVariation.
  intros H. destruct (data step) eqn:Hd.
  4: { injection H as <- <-. exists (data step).
       by rewrite withStepData_data, Hd. }
  all: repeat case_match; simplify_eq; eexists; split; first [reflexivity|done].
Qed.

Lemma mockExecuteStep_rejected step w :
  lacksResponse step = true →
  mockExecuteStep T step w
  = (Rejected (typeError T), (randomBelow T 5 w).2).
Proof.
  unfold lacksResponse, mockExecuteStep, mockExecutePromptStep.
  destruct (data step) as [p [resp|]| | |]; try done. intros _.
  by destruct (randomBelow T 5 w).
Qed.

Lemma mockExecuteStep_resolved step w :
  lacksResponse step = false →
  ∃ r w', mockExecuteStep T step w = (Resolved r, w').
Proof.
  unfold lacksResponse, mockExecuteStep, mockExecutePromptStep.
  destruct (data step) as [p [resp|]|path a c|c o e x|resp]; try done;
    intros _.
  - destruct (randomBelow T 5 w) as [k w1].
    repeat case_match; eauto.
  - destruct (mockExecuteFileEditStep T step path a c w). eauto.
  - destruct (mockExecuteCommandStep T step c o e x w). eauto.
  - eauto.
Qed.

Lemma mockExecuteStep_preservesIndex : preservesIndex (mockExecuteStep T).
Proof.
  intros step w r w' H.
  apply mockExecuteStep_Resolved_inv in H as (d & -> & _). done.
Qed.

(** X17: the mock executor gives back the step it was given with only
    its payload replaced, by a payload of the same type: index, group,
    time, title, tags and replay mark are those of its input. *)
Theorem mockExecuteStep_keeps_frame (step : Step) (w : World)
    (r : Step) (w' : World) :
  mockExecuteStep T step w = (Resolved r, w') →
  stepIndex r = stepIndex step ∧ group r = group step
  ∧ timestamp r = timestamp step ∧ title r = title step
  ∧ tags r = tags step ∧ replayOf r = replayOf step
  ∧ type r = type step.
Proof.
  intros H. apply mockExecuteStep_Resolved_inv in H as (d & -> & Hd).
  by split_and!.
Qed.

(** X18: the mock executor rejects exactly the prompts that have no
    response, as the type of a prompt step declares them; it has then
    drawn one random number.  Every other step it resolves. *)
Theorem mockExecuteStep_rejects_iff (step : Step) (w : World) :
  ((∃ reason w', mockExecuteStep T step w = (Rejected reason, w'))
   ↔ lacksResponse step = true)
  ∧ ((∃ r w', mockExecuteStep T step w = (Resolved r, w'))
     ↔ lacksResponse step = false)
  ∧ (lacksResponse step = true →
     mockExecuteStep T step w
     = (Rejected (typeError T), (randomBelow T 5 w).2)).
Proof.
  split_and!.
  - split.
    + intros (reason & w' & H).
      destruct (lacksResponse step) eqn:E; [done|].
      destruct (mockExecuteStep_resolved step w E) as (r & w1 & H1).
      congruence.
    + intros E. rewrite (mockExecuteStep_rejected step w E). eauto.
  - split.
    + intros (r & w' & H).
      destruct (lacksResponse step) eqn:E; [|done].
      rewrite (mockExecuteStep_rejected step w E) in H. done.
    + apply mockExecuteStep_resolved.
  - apply mockExecuteStep_rejected.
Qed.

(** X19: the mock executor gives back the very step it was given, and
    draws no random number, for an assistant response, for the deletion
    of a file, and for a [git] command that is neither [git status] nor
    [git log] and not taken for an installation, a build or a test. *)
Theorem mockExecuteStep_unchanged (step : Step) (w : World) :
  (type step = TAssistantResponse
   ∨ (∃ path content, data step = FileEditData path ActDelete content)
   ∨ (∃ command out err x,
        data step = CommandData command out err x
        ∧ forcesExitZero command = false
        ∧ includes command "git" = true
        ∧ includes command "git status" = false
        ∧ includes command "git log" = false)) →
  mockExecuteStep T step w = (Resolved step, w).
Proof.
  unfold mockExecuteStep, type.
  intros [Ht|[(path & content & Hd)|(command & out & err & x & Hd & Hz
                                      & Hgit & Hstatus & Hlog)]].
  - by destruct (data step).
  - rewrite Hd. unfold mockExecuteFileEditStep.
    by rewrite <- Hd, withStepData_data.
  - rewrite Hd. unfold mockExecuteCommandStep.
    unfold forcesExitZero in Hz.
    repeat (apply orb_false_elim in Hz as [Hz ?]).
    repeat match goal with H : includes _ _ = _ |- _ => rewrite H end.
    simpl. by rewrite <- Hd, withStepData_data.
Qed.

(** X20: the mock executor on a command, the draws staying below their
    bounds: the command line is kept; the exit code becomes 0 when the
    command line contains [npm install], [yarn install],
    [npm run build], [yarn build], [test], [jest] or [vitest], whatever
    it was and also for a [git] command, and is kept otherwise.  The
    standard error is kept for those commands and for [git] commands. *)
Theorem mockExecuteStep_command (step : Step)
    (command out err : string) (x : Z) (w : World) :
  drawsBelow T →
  data step = CommandData command out err x →
  ∃ out' err' w',
    mockExecuteStep T step w
    = (Resolved
         (withStepData step
            (CommandData command out' err'
               (if forcesExitZero command then 0%Z else x))), w')
    ∧ (forcesExitZero command = true ∨ includes command "git" = true →
       err' = err).
Proof.
  intros Hdraw Hd. unfold mockExecuteStep. rewrite Hd.
  unfold mockExecuteCommandStep, forcesExitZero.
  destruct (includes command "npm install") eqn:E1;
    [|destruct (includes command "yarn install") eqn:E2];
    [| |destruct (includes command "npm run build") eqn:E3;
         [|destruct (includes command "yarn build") eqn:E4];
         [| |destruct (includes command "test") eqn:E5;
              [|destruct (includes command "jest") eqn:E6];
              [| |destruct (includes command "vitest") eqn:E7;
                   [|destruct (includes command "git") eqn:E8]]]];
    simpl;
    try (match goal with
         | |- context [replacePackageCounts T ?o ?v] =>
             destruct (replacePackageCounts T o v) as [o1 w1]
         | |- context [replaceBuildTimes T ?o ?v] =>
             destruct (replaceBuildTimes T o v) as [o1 w1]
         | |- context [replaceTestTimes T ?o ?v] =>
             destruct (replaceTestTimes T o v) as [o1 w1]
         | |- context [replaceNumbers T ?o ?v] =>
             destruct (replaceNumbers T o v) as [o1 w1]
         end;
         match goal with
         | |- context [randomBelow T ?n ?v] =>
             let Hk := fresh "Hk" in
             pose proof (Hdraw n v) as Hk;
             destruct (randomBelow T n v) as [k w2]; simpl in Hk;
             destruct k as [|[|[|k]]]; simpl; try lia
         end);
    try (eexists _, _, _; split; [reflexivity|]; intros [?|?]; done).
Qed.
End MockExecutorProperties.

Lemma mockExecuteStep_keeps_frame_witness :
  ∃ r w', mockExecuteStep demoTexts demoStep4 0%nat = (Resolved r, w')
          ∧ stepIndex r = 4%Z ∧ group r = 2%Z.
Proof.
  destruct (mockExecuteStep demoTexts demoStep4 0%nat) as [[r|msg] w']
    eqn:E; [|by vm_compute in E].
  exists r, w'. split; [done|].
  destruct (mockExecuteStep_keeps_frame demoTexts demoStep4 0%nat r w' E)
    as (Hi & Hg & _).
  by rewrite Hi, Hg.
Defined.

Lemma mockExecuteStep_unchanged_witness :
  mockExecuteStep demoTexts
    (plainStep 1 1 (CommandData "git commit" "ok" "" 0)) 0%nat
  = (Resolved (plainStep 1 1 (CommandData "git commit" "ok" "" 0)), 0%nat).
Proof.
  apply (mockExecuteStep_unchanged demoTexts).
  right. right. exists "git commit", "ok", EmptyString, 0%Z.
  split_and!; reflexivity.
Defined.

Lemma mockExecuteStep_command_witness :
  ∃ out' err' w',
    mockExecuteStep demoTexts
      (plainStep 1 1 (CommandData "git commit -m tests" "ok" "" 1)) 0%nat
    = (Resolved
         (plainStep 1 1 (CommandData "git commit -m tests" out' err' 0)),
       w').
Proof.
  destruct (mockExecuteStep_command demoTexts
              (plainStep 1 1 (CommandData "git commit -m tests" "ok" "" 1))
              "git commit -m tests" "ok" EmptyString 1%Z 0%nat
              demoTexts_drawsBelow eq_refl)
    as (out' & err' & w' & H & _).
  by exists out', err', w'.
Defined.

Section MockBranch.
Context {World : Type} (now : World → string * World) (T : Texts World).

(** X21: a branch made with the mock executor replays the steps after
    the cut step, in its group, up to the first prompt without
    response, at which it stops: it holds one replayed step for each
    step before that prompt, and the executor was called on those steps
    and on that prompt. *)
Theorem createReplaySession_mock_stops (S : Session) (i : Z)
    (fromStep : Step) (e : Env) (sess : Session) (e' : Env) :
  findStep i (steps S) = Some fromStep →
  createReplaySession now S i (mockExecuteStep T) e = (Returned sess, e') →
  ∃ done rest rs,
    stepsToReplayInSameGroup S (group fromStep) i = done ++ rest
    ∧ steps sess
      = filter (fun step => (group step ≤ group fromStep)%Z) (steps S) ++ rs
    ∧ length rs = length done
    ∧ Forall (fun o => lacksResponse o = false) done
    ∧ (rest = [] ∨ ∃ o rest', rest = o :: rest' ∧ lacksResponse o = true)
    ∧ calls e' = calls e ++ done ++ take 1 rest.
Proof.
  intros Hf Hc. destruct e as [w cs].
  destruct (replayLoop_spec now (mockExecuteStep T)
              (stepsToReplayInSameGroup S (group fromStep) i) [] w cs)
    as (done & rest & rs & w1 & e1 & Htodo & Hrun & Hl & Hend).
  destruct (now (world e1)) as [t w2] eqn:Ht.
  destruct (now w2) as [created w3] eqn:Hcr.
  rewrite (createReplaySession_found now (mockExecuteStep T) S i fromStep
             _ _ _ _ _ _ _ Hf Hl Ht Hcr) in Hc.
  injection Hc as <- <-. exists done, rest, rs. simpl.
  unfold unchangedStepsOf. rewrite map_spread_id.
  split_and!; try done.
  - by apply (resolvedRun_length now (mockExecuteStep T) _ _ _ _ Hrun).
  - pose proof (resolvedRun_tags now (mockExecuteStep T) _ _ _ _ Hrun)
      as Htags.
    clear -Htags. induction Htags as [|o r done rs Hor _ IH]; [done|].
    constructor; [|done].
    destruct Hor as (_ & v & r0 & v1 & He & _).
    destruct (lacksResponse o) eqn:E; [|done].
    by rewrite (mockExecuteStep_rejected T o v E) in He.
  - destruct Hend as [[-> _]|(o & rest' & reason & w4 & -> & Hrej & _)];
      [by left|right].
    exists o, rest'. split; [done|].
    destruct (lacksResponse o) eqn:E; [done|].
    destruct (mockExecuteStep_resolved T o w1 E) as (r & w5 & Hres).
    congruence.
  - destruct Hend as [[-> ->]|(o & rest' & reason & w4 & -> & _ & ->)];
      simpl; by rewrite ?app_nil_r.
Qed.

(** X22: in a branch made with the mock executor no step has a group
    beyond the cut step's; and if in the original an index determines
    the group, the comparison of the original with the branch counts no
    modified and no added step: what the mock executor wrote is not
    compared. *)
Theorem compareSessions_with_mock_branch (S : Session) (i : Z)
    (fromStep : Step) (e : Env) (sess : Session) (e' : Env) :
  findStep i (steps S) = Some fromStep →
  createReplaySession now S i (mockExecuteStep T) e = (Returned sess, e') →
  Forall (fun step => (group step ≤ group fromStep)%Z) (steps sess)
  ∧ (indexDeterminesGroup S →
     modifiedSteps (summary (compareSessions S sess)) = 0%nat
     ∧ addedSteps (summary (compareSessions S sess)) = 0%nat).
Proof.
  intros Hf Hc. split.
  - destruct (createReplaySession_Returned_inv now (mockExecuteStep T) S i
                fromStep e sess e' Hf Hc)
      as (done & rest & rs & w1 & Htodo & Hrun & -> & _).
    apply Forall_app. split.
    + apply Forall_forall. intros s Hs.
      by apply list_elem_of_filter in Hs as [Hle _].
    + pose proof (resolvedRun_in_prefix now (mockExecuteStep T) S i _ _ _ _
                    _ _ Htodo Hrun) as Hpre.
      eapply Forall_impl; [exact Hpre|]. simpl.
      intros r (o & r0 & v & v1 & Ho & _ & He & _ & _ & Hg & _).
      apply list_elem_of_filter in Ho as [Hle _].
      apply mockExecuteStep_Resolved_inv in He as (d & -> & _).
      rewrite Hg. simpl. done.
  - intros Hdet. split.
    + apply (compareSessions_branch_counts now (mockExecuteStep T) S i
               fromStep e sess e' modified); auto.
      apply mockExecuteStep_preservesIndex.
    + apply (compareSessions_branch_counts now (mockExecuteStep T) S i
               fromStep e sess e' added); auto.
      apply mockExecuteStep_preservesIndex.
Qed.
End MockBranch.

Lemma createReplaySession_mock_stops_witness :
  ∃ sess e',
    createReplaySession demoClock demoSession 3 (mockExecuteStep demoTexts)
      (mkEnv 0%nat []) = (Returned sess, e')
    ∧ ∃ done rest (rs : list Step),
        stepsToReplayInSameGroup demoSession 2 3 = done ++ rest
        ∧ length rs = length done
        ∧ calls e' = done ++ take 1 rest.
Proof.
  destruct (createReplaySession demoClock demoSession 3
              (mockExecuteStep demoTexts) (mkEnv 0%nat []))
    as [[sess|msg] e'] eqn:E; [|by vm_compute in E].
  exists sess, e'. split; [done|].
  destruct (createReplaySession_mock_stops demoClock demoTexts demoSession 3
              demoStep3 (mkEnv 0%nat []) sess e' eq_refl E)
    as (done & rest & rs & Htodo & _ & Hlen & _ & _ & Hcalls).
  by exists done, rest, rs.
Defined.

Lemma compareSessions_with_mock_branch_witness :
  ∃ sess e',
    createReplaySession demoClock demoSession 3 (mockExecuteStep demoTexts)
      (mkEnv 0%nat []) = (Returned sess, e')
    ∧ modifiedSteps (summary (compareSessions demoSession sess)) = 0%nat.
Proof.
  destruct (createReplaySession demoClock demoSession 3
              (mockExecuteStep demoTexts) (mkEnv 0%nat []))
    as [[sess|msg] e'] eqn:E; [|by vm_compute in E].
  exists sess, e'. split; [done|].
  destruct (compareSessions_with_mock_branch demoClock demoTexts demoSession
              3 demoStep3 (mkEnv 0%nat []) sess e' eq_refl E)
    as (_ & Hcmp).
  apply Hcmp, demoSession_indexDeterminesGroup.
Defined.
